(** * FMCSA Register scraper: extraction, classification and persistence

    A shallow embedding of the register-scraping handlers (the Express route
    [app.post('/api/fmcsa-register')] and its serverless twin) and of the
    Supabase persistence service [fmcsaRegisterService.ts], with the
    properties of the extraction pipeline proved over it. *)

From Stdlib Require Import ZArith NArith Ascii String.
From stdpp Require Import base tactics option gmap numbers list.

Local Open Scope nat_scope.

(** ** JavaScript strings

    A JavaScript string is a finite sequence of UTF-16 code units; [length],
    [substring], [includes], [trim] and the regular-expression engine (without
    the [u] flag) all work on code units. *)

Module Js.

Abbreviation codeUnit := N (only parsing).
Abbreviation jsstring := (list N) (only parsing).

(** String literals of the source, written as Rocq strings. *)
Definition lit (s : string) : jsstring :=
  map N_of_ascii (list_ascii_of_string s).

Definition SPACE : codeUnit := 32%N.
Definition NBSP : codeUnit := 160%N.

(** The set shared by the regular-expression class [\s] and by
    [String.prototype.trim]: WhiteSpace (TAB, VT, FF, SP, NBSP, ZWNBSP and the
    Unicode space separators) together with LineTerminator (LF, CR, LS, PS). *)
Definition isWhiteSpace (c : codeUnit) : bool :=
  (c =? 9)%N || (c =? 10)%N || (c =? 11)%N || (c =? 12)%N || (c =? 13)%N
  || (c =? 32)%N || (c =? 160)%N || (c =? 5760)%N
  || ((8192 <=? c)%N && (c <=? 8202)%N)
  || (c =? 8232)%N || (c =? 8233)%N || (c =? 8239)%N || (c =? 8287)%N
  || (c =? 12288)%N || (c =? 65279)%N.

(** The class [\d]. *)
Definition isDigit (c : codeUnit) : bool := (48 <=? c)%N && (c <=? 57)%N.

(** [s.substring(a, b)]: both indices are clamped to [0, s.length] and
    swapped when [a > b]. *)
Definition clamp (len : nat) (i : Z) : nat := Z.to_nat (Z.min (Z.max i 0) (Z.of_nat len)).

Definition substring (s : jsstring) (a b : Z) : jsstring :=
  let from := Nat.min (clamp (length s) a) (clamp (length s) b) in
  let to := Nat.max (clamp (length s) a) (clamp (length s) b) in
  take (to - from) (drop from s).

Fixpoint startsWith (s k : jsstring) {struct k} : bool :=
  match k, s with
  | [], _ => true
  | _ :: _, [] => false
  | c :: k', d :: s' => (c =? d)%N && startsWith s' k'
  end.

(** [s.includes(k)]: [k] occurs at some index of [s]. *)
Fixpoint includes (s k : jsstring) : bool :=
  startsWith s k ||
  match s with
  | [] => false
  | _ :: s' => includes s' k
  end.

Fixpoint trimStart (s : jsstring) : jsstring :=
  match s with
  | [] => []
  | c :: s' => if isWhiteSpace c then trimStart s' else s
  end.

Definition trimEnd (s : jsstring) : jsstring := reverse (trimStart (reverse s)).

Definition trim (s : jsstring) : jsstring := trimEnd (trimStart s).

(** Strict equality [===] of two strings. *)
Definition strictEq (a b : jsstring) : bool := bool_decide (a = b).

End Js.

Import Js.

(** ** Regular expressions

    A backtracking matcher in continuation-passing style, following the
    ECMAScript semantics of the constructs the source patterns use:
    alternatives are tried left to right, a greedy quantifier tries one more
    iteration before the rest of the pattern, a lazy one tries the rest first,
    and an iteration of a quantifier that consumes nothing is rejected. *)

Module Regex.

Inductive regex : Type :=
| Empty
| Class (p : codeUnit → bool)
| Seq (r1 r2 : regex)
| Alt (r1 r2 : regex)
| Star (greedy : bool) (r : regex)
| Group (i : nat) (r : regex).

Definition Chr (c : codeUnit) : regex := Class (N.eqb c).

Definition Lit (s : string) : regex := foldr (λ c r, Seq (Chr c) r) Empty (lit s).

(** [r+] and [r+?] *)
Definition Plus (greedy : bool) (r : regex) : regex := Seq r (Star greedy r).

(** [r{n}] *)
Fixpoint Rep (n : nat) (r : regex) : regex :=
  match n with
  | 0 => Empty
  | S n' => Seq r (Rep n' r)
  end.

Abbreviation captures := (list (option (list N))) (only parsing).

(** A matcher state is the input that remains and the captures so far. *)
Definition cont := jsstring → captures → option (jsstring * captures).

(** The iterations of a quantified atom [body]: at most [n] more of them,
    where [n] starts as the length of the remaining input, which bounds
    their number because each one has to consume something. *)
Fixpoint starIter (body : jsstring → captures → cont → option (jsstring * captures))
    (greedy : bool) (k : cont) (n : nat) (s : jsstring) (caps : captures)
  : option (jsstring * captures) :=
  match n with
  | 0 => k s caps
  | S n' =>
      let again :=
        body s caps
          (λ s1 c1, if length s1 =? length s then None
                    else starIter body greedy k n' s1 c1) in
      if greedy then
        match again with
        | Some res => Some res
        | None => k s caps
        end
      else
        match k s caps with
        | Some res => Some res
        | None => again
        end
  end.

Fixpoint rmatch (r : regex) (s : jsstring) (caps : captures) (k : cont)
  : option (jsstring * captures) :=
  match r with
  | Empty => k s caps
  | Class p =>
      match s with
      | c :: s' => if p c then k s' caps else None
      | [] => None
      end
  | Seq r1 r2 => rmatch r1 s caps (λ s1 c1, rmatch r2 s1 c1 k)
  | Alt r1 r2 =>
      match rmatch r1 s caps k with
      | Some res => Some res
      | None => rmatch r2 s caps k
      end
  | Group i r1 =>
      rmatch r1 s caps
        (λ s1 c1, k s1 (<[i := Some (take (length s - length s1) s)]> c1))
  | Star greedy r1 =>
      starIter (rmatch r1) greedy k (length s) s caps
  end.

(** The result of [RegExp.prototype.exec]: [index] is where the match starts,
    [groups !! 0] is the whole match and [groups !! i] is capture [i]
    ([None] for [undefined]). *)
Record execResult := ExecResult {
  index : nat;
  groups : captures;
  endIndex : nat
}.

Fixpoint execFrom (r : regex) (ngroups : nat) (s : jsstring) (i : nat)
  : option execResult :=
  match rmatch r s (replicate (S ngroups) None) (λ s' c, Some (s', c)) with
  | Some (s', c) =>
      let len := length s - length s' in
      Some (ExecResult i (<[0 := Some (take len s)]> c) (i + len))
  | None =>
      match s with
      | [] => None
      | _ :: s' => execFrom r ngroups s' (S i)
      end
  end.

(** [exec] on a global pattern starts at [lastIndex]; the caller stores
    [endIndex] of the result back into [lastIndex]. *)
Definition exec (r : regex) (ngroups : nat) (text : jsstring) (lastIndex : nat)
  : option execResult :=
  if length text <? lastIndex then None
  else execFrom r ngroups (drop lastIndex text) lastIndex.

End Regex.

Import Regex.

(** The docket token [(?:MC|FF|MX|MX-MC)-\d+] and the date
    [\d{2}\/\d{2}\/\d{4}]. *)
Definition docketRegex : regex :=
  Seq (Alt (Lit "MC") (Alt (Lit "FF") (Alt (Lit "MX") (Lit "MX-MC"))))
      (Seq (Lit "-") (Plus true (Class isDigit))).

Definition dateRegex : regex :=
  Seq (Rep 2 (Class isDigit))
 (Seq (Lit "/")
 (Seq (Rep 2 (Class isDigit))
 (Seq (Lit "/")
      (Rep 4 (Class isDigit))))).

(** [[\s\S]]: any code unit. *)
Definition anyUnit : regex := Class (λ c, isWhiteSpace c || negb (isWhiteSpace c)).

(** What follows the docket token in the pattern:
    [\s+([\s\S]*?)\s+(\d{2}\/\d{2}\/\d{4})] *)
Definition patternTail : regex :=
  Seq (Plus true (Class isWhiteSpace))
 (Seq (Group 2 (Star false anyUnit))
 (Seq (Plus true (Class isWhiteSpace))
      (Group 3 dateRegex))).

(** [/((?:MC|FF|MX|MX-MC)-\d+)\s+([\s\S]*?)\s+(\d{2}\/\d{2}\/\d{4})/g] *)
Definition pattern : regex := Seq (Group 1 docketRegex) patternTail.

Definition patternGroups : nat := 3.

(** ** Completions

    A computation of the source either finishes with a value or throws; the
    loops of the model run on fuel, and [OutOfFuel] marks a run that the
    fuel did not cover. *)

Inductive outcome (A : Type) : Type :=
| Done (a : A)
| Thrown (message : string)
| OutOfFuel.
Arguments Done {A} a.
Arguments Thrown {A} message.
Arguments OutOfFuel {A}.

#[global] Instance outcome_bind : MBind outcome := λ A B f m,
  match m with
  | Done a => f a
  | Thrown msg => Thrown msg
  | OutOfFuel => OutOfFuel
  end.

(** ** [String.prototype.replace] with a global pattern

    Every match, found by successive [exec] calls, is replaced; after an
    empty match the search resumes one code unit further. *)

Fixpoint replaceLoop (fuel : nat) (r : regex) (ngroups : nat) (replacement text : jsstring)
    (lastIndex nextSource : nat) (acc : jsstring) : outcome jsstring :=
  match fuel with
  | 0 => OutOfFuel
  | S fuel' =>
      match exec r ngroups text lastIndex with
      | None => Done (acc ++ drop nextSource text)
      | Some m =>
          let lastIndex' := if endIndex m =? index m then S (endIndex m) else endIndex m in
          replaceLoop fuel' r ngroups replacement text lastIndex' (endIndex m)
            (acc ++ take (index m - nextSource) (drop nextSource text) ++ replacement)
      end
  end.

Definition replaceAll (r : regex) (ngroups : nat) (replacement text : jsstring)
  : outcome jsstring :=
  replaceLoop (S (S (length text))) r ngroups replacement text 0 0 [].

(** [/\s+/g] and [/\u00a0/g] *)
Definition whitespaceRun : regex := Plus true (Class isWhiteSpace).
Definition nbsp : regex := Chr NBSP.

(** ** The text helper

    [cleanText]: [null], [undefined] and the empty string give the empty
    string; otherwise non-breaking spaces become spaces, whitespace runs are
    collapsed and the result is trimmed. *)

Definition cleanText (text : option jsstring) : outcome jsstring :=
  match text with
  | None | Some [] => Done []
  | Some text =>
      a ← replaceAll nbsp 0 (lit " ") text;
      b ← replaceAll whitespaceRun 0 (lit " ") a;
      Done (trim b)
  end.

(** ** Register entries and the category table *)

Record Entry := mkEntry {
  number : jsstring;
  title : jsstring;
  decided : jsstring;
  category : jsstring
}.

(** [Object.entries] lists string keys in insertion order, so the table is an
    ordered list of rows. *)
Definition categoryKeywords : list (jsstring * list jsstring) :=
  [ (lit "NAME CHANGE", [lit "NAME CHANGES"]);
    (lit "CERTIFICATE, PERMIT, LICENSE", [lit "CERTIFICATES, PERMITS & LICENSES"]);
    (lit "CERTIFICATE OF REGISTRATION", [lit "CERTIFICATES OF REGISTRATION"]);
    (lit "DISMISSAL", [lit "DISMISSALS"]);
    (lit "WITHDRAWAL", [lit "WITHDRAWAL OF APPLICATION"]);
    (lit "REVOCATION", [lit "REVOCATIONS"]);
    (lit "TRANSFERS", [lit "TRANSFERS"]);
    (lit "GRANT DECISION NOTICES", [lit "GRANT DECISION NOTICES"]) ].

Definition MISCELLANEOUS : jsstring := lit "MISCELLANEOUS".

(** The [for ... of Object.entries(categoryKeywords)] loop: every row whose
    [keywords.some(k => contextText.includes(k))] holds overwrites [category]. *)
Definition detectCategory (contextText : jsstring) : jsstring :=
  foldl (λ category row,
           if existsb (λ k, includes contextText k) row.2 then row.1 else category)
        MISCELLANEOUS categoryKeywords.

(** [match[i]]; [None] stands for [undefined]. *)
Definition capture (m : execResult) (i : nat) : option jsstring :=
  mjoin (groups m !! i).

(** [Array.prototype.findIndex] and [Array.prototype.filter] with the index
    passed to the callback. *)
Definition findIndex {A} (p : A → bool) (l : list A) : Z :=
  match list_find (λ x, Is_true (p x)) l with
  | Some (i, _) => Z.of_nat i
  | None => (-1)%Z
  end.

Fixpoint filterFrom {A} (p : A → nat → bool) (index : nat) (l : list A) : list A :=
  match l with
  | [] => []
  | x :: l' =>
      if p x index then x :: filterFrom p (S index) l' else filterFrom p (S index) l'
  end.

Definition filterIndexed {A} (p : A → nat → bool) (l : list A) : list A :=
  filterFrom p 0 l.

(** [e => e.number === entry.number && e.title === entry.title] *)
Definition sameKeyAs (entry e : Entry) : bool :=
  strictEq (number e) (number entry) && strictEq (title e) (title entry).

(** [entries.filter((entry, index, self) =>
       index === self.findIndex(e => e.number === entry.number && e.title === entry.title))] *)
Definition uniqueEntries (entries : list Entry) : list Entry :=
  filterIndexed
    (λ entry index, (Z.of_nat index =? findIndex (sameKeyAs entry) entries)%Z)
    entries.

(** ** The scraping handlers *)

Inductive body : Type :=
| Failure (error : string) (details : option string) (entries : list Entry)
| Success (count : nat) (date lastUpdated : jsstring) (entries : list Entry)
| ErrorOnly (error : string)
| NoBody.

Record response := Response { status : nat; payload : body }.

Section Handlers.

(** [String.prototype.toUpperCase] (the Unicode upper-case mapping) and
    cheerio's [load(data).text()] are taken as they come from the platform. *)
Variable toUpperCase : jsstring → jsstring.
Variable cheerioText : jsstring → jsstring.
(** [date || formatDateForFMCSA(new Date())] and [new Date().toISOString()]. *)
Variable registerDate : jsstring.
Variable now : jsstring.

(** [rawText.substring(Math.max(0, beforeIndex - 1500), beforeIndex).toUpperCase()] *)
Definition contextText (rawText : jsstring) (beforeIndex : nat) : jsstring :=
  toUpperCase
    (substring rawText (Z.max 0 (Z.of_nat beforeIndex - 1500)) (Z.of_nat beforeIndex)).

(** The body of the [while] loop for one match: [None] is [continue]. *)
Definition processMatch (rawText : jsstring) (m : execResult) : outcome (option Entry) :=
  match capture m 1, capture m 2, capture m 3 with
  | Some docket, Some rawInfo, Some decidedDate =>
      collapsed ← replaceAll whitespaceRun 0 (lit " ") rawInfo;
      let title := trim collapsed in
      if 500 <? length title then Done None
      else
        let beforeIndex := index m in
        let category := detectCategory (contextText rawText beforeIndex) in
        Done (Some (mkEntry docket title decidedDate category))
  | _, _, _ => Thrown "TypeError: Cannot read properties of undefined"
  end.

(** [while ((match = pattern.exec(rawText)) !== null) { ... }]; [lastIndex] is
    the state of the pattern object. *)
Fixpoint scanLoop (fuel : nat) (rawText : jsstring) (lastIndex : nat)
    (entries : list Entry) : outcome (list Entry) :=
  match fuel with
  | 0 => OutOfFuel
  | S fuel' =>
      match exec pattern patternGroups rawText lastIndex with
      | None => Done entries
      | Some m =>
          step ← processMatch rawText m;
          scanLoop fuel' rawText (endIndex m)
            (match step with
             | Some entry => entries ++ [entry]
             | None => entries
             end)
      end
  end.

Definition scanEntries (rawText : jsstring) : outcome (list Entry) :=
  scanLoop (S (length rawText)) rawText 0 [].

(** Scan, then deduplicate: the entries a successful response carries. *)
Definition extractEntries (rawText : jsstring) : outcome (list Entry) :=
  entries ← scanEntries rawText;
  Done (uniqueEntries entries).

Definition MARKER : jsstring := lit "FMCSA REGISTER".

Definition hasMarker (data : jsstring) : bool := includes (toUpperCase data) MARKER.

(** What [await axios.post(...)] gives: the page, or a rejection. *)
Inductive fetched : Type :=
| Page (data : jsstring)
| Rejected (message : string).

(** The [try] block after the request, shared by both handlers up to the
    text of the validation error; a throw ends in the [catch] block. *)
Definition scrape (invalid : string) (f : fetched) : outcome response :=
  match f with
  | Rejected message =>
      Done (Response 500
              (Failure "Failed to scrape FMCSA register data" (Some message) []))
  | Page data =>
      if negb (hasMarker data) then
        Done (Response 400 (Failure invalid None []))
      else
        match extractEntries (cheerioText data) with
        | Done uniqueEntries =>
            Done (Response 200
                    (Success (length uniqueEntries) registerDate now uniqueEntries))
        | Thrown message =>
            Done (Response 500
                    (Failure "Failed to scrape FMCSA register data" (Some message) []))
        | OutOfFuel => OutOfFuel
        end
  end.

(** [app.post('/api/fmcsa-register', ...)] *)
Definition registerRoute (f : fetched) : outcome response :=
  scrape "Invalid response from FMCSA. The page might not be available for this date." f.

(** The serverless handler: [OPTIONS] and non-[POST] requests are answered
    before any request is made. *)
Definition defaultHandler (method : string) (f : fetched) : outcome response :=
  if String.eqb method "OPTIONS" then Done (Response 200 NoBody)
  else if negb (String.eqb method "POST") then
    Done (Response 405 (ErrorOnly "Method not allowed"))
  else scrape "Invalid response from FMCSA" f.

End Handlers.

(** An upper-casing that agrees with [toUpperCase] on ASCII text. *)
Definition asciiUpper (s : jsstring) : jsstring :=
  map (λ c : codeUnit, if (97 <=? c)%N && (c <=? 122)%N then (c - 32)%N else c) s.

(** ** The persistence service *)

Module Service.

(** [FMCSARegisterEntry]; the optional fields are [None] when absent. *)
Record FMCSARegisterEntry := mkRow {
  id : option jsstring;
  number : jsstring;
  title : jsstring;
  decided : jsstring;
  category : jsstring;
  date_fetched : jsstring;
  created_at : option jsstring;
  updated_at : option jsstring
}.

(** What awaiting a Supabase request gives: the object [{ data, error }],
    [error] being [null] or an error with its message, or a rejection. *)
Inductive reply (A : Type) : Type :=
| Answer (data : option A) (error : option string)
| Reject (message : string).
Arguments Answer {A} data error.
Arguments Reject {A} message.

(** The request failed with [message]. *)
Definition fails {A} (r : reply A) (message : string) : Prop :=
  r = Reject message ∨ ∃ data, r = Answer data (Some message).

Inductive clause : Type :=
| Eq (column : string) (value : jsstring)
| Gte (column : string) (value : jsstring)
| Lte (column : string) (value : jsstring)
| Or (filters : jsstring)
| Order (column : string) (ascending : bool)
| Limit (n : Z).

(** [supabase.from(table).select(columns)] followed by its clauses. *)
Record query := Query {
  table : string;
  columns : string;
  clauses : list clause
}.

(** What a function of the service does besides returning. *)
Inductive effect : Type :=
| Upsert (table : string) (records : list FMCSARegisterEntry) (onConflict : string)
| Select (q : query)
| ConsoleError (label message : string).

Record saveResult := SaveResult {
  success : bool;
  error : option string;
  count : option nat
}.

Record filters := Filters {
  f_category : option jsstring;
  dateFrom : option jsstring;
  dateTo : option jsstring;
  searchTerm : option jsstring;
  limit : option Z
}.

(** A string option is truthy when it is present and not empty. *)
Definition truthy (s : option jsstring) : option jsstring :=
  match s with
  | Some (c :: s') => Some (c :: s')
  | Some [] | None => None
  end.

Section Client.

(** The Supabase client, which is not part of the repository, and the clock
    read by each [new Date().toISOString()]. *)
Variable upsert : string → list FMCSARegisterEntry → string → reply (list FMCSARegisterEntry).
Variable select : query → reply (list FMCSARegisterEntry).
Variable clock : nat → jsstring.

Definition toRecords (entries : list FMCSARegisterEntry) (fetchDate : jsstring)
  : list FMCSARegisterEntry :=
  imap (λ i entry,
          mkRow None (number entry) (title entry) (decided entry) (category entry)
                fetchDate (Some (clock (2 * i))) (Some (clock (2 * i + 1))))
       entries.

Definition saveFMCSARegisterEntries (entries : option (list FMCSARegisterEntry))
    (fetchDate : jsstring) : saveResult * list effect :=
  match entries with
  | None | Some [] => (SaveResult true None (Some 0), [])
  | Some entries =>
      let records := toRecords entries fetchDate in
      let call := Upsert "fmcsa_register" records "number,date_fetched" in
      match upsert "fmcsa_register" records "number,date_fetched" with
      | Answer _ (Some message) =>
          (SaveResult false (Some message) None,
           [call; ConsoleError "Supabase save error:" message])
      | Answer _ None => (SaveResult true None (Some (length records)), [call])
      | Reject message =>
          (SaveResult false (Some message) None,
           [call; ConsoleError "Exception saving FMCSA entries:" message])
      end
  end.

Definition buildQuery (f : option filters) : query :=
  Query "fmcsa_register" "*"
    ((match truthy (f ≫= f_category) with
      | Some c => if strictEq c (lit "all") then [] else [Eq "category" c]
      | None => []
      end)
     ++ (match truthy (f ≫= dateFrom) with
         | Some d => [Gte "date_fetched" d]
         | None => []
         end)
     ++ (match truthy (f ≫= dateTo) with
         | Some d => [Lte "date_fetched" d]
         | None => []
         end)
     ++ (match truthy (f ≫= searchTerm) with
         | Some t =>
             let searchPattern := lit "%" ++ t ++ lit "%" in
             [Or (lit "number.ilike." ++ searchPattern ++ lit ",title.ilike."
                  ++ searchPattern)]
         | None => []
         end)
     ++ [Order "date_fetched" false; Order "number" true]
     ++ (match f ≫= limit with
         | Some n => if (n =? 0)%Z then [Limit 500] else [Limit n]
         | None => [Limit 500]
         end)).

Definition fetchFMCSARegisterEntries (f : option filters)
  : list FMCSARegisterEntry * list effect :=
  let q := buildQuery f in
  match select q with
  | Answer _ (Some message) =>
      ([], [Select q; ConsoleError "Supabase fetch error:" message])
  | Answer data None => (default [] data, [Select q])
  | Reject message =>
      ([], [Select q; ConsoleError "Exception fetching from Supabase:" message])
  end.

End Client.

End Service.

(** ** The register page

    The list of categories the page [FMCSARegister.tsx] offers in its filter
    and shows counts for. *)

Module Page.

Definition categories : list jsstring :=
  [ lit "NAME CHANGE";
    lit "CERTIFICATE, PERMIT, LICENSE";
    lit "CERTIFICATE OF REGISTRATION";
    lit "DISMISSAL";
    lit "WITHDRAWAL";
    lit "REVOCATION";
    lit "MISCELLANEOUS";
    lit "TRANSFERS";
    lit "GRANT DECISION NOTICES" ].

(** [getCategoryCount], the number shown beside each option of the category
    selector; [registerData] is the state it closes over. *)
Definition getCategoryCount (registerData : list Entry) (category' : jsstring) : nat :=
  if strictEq category' (lit "all") then length registerData
  else length (List.filter (λ e, strictEq (category e) category') registerData).

End Page.

(** ** The date of the register

    [formatDateForFMCSA], the same in both handlers. A [Date] is read
    through [getDate], [getMonth] and [getFullYear]. *)

Module DateFormat.

Record jsDate := JsDate {
  getDate : N;
  getMonth : N;
  getFullYear : Z
}.

(** [String(n)] for an integer: its decimal digits, most significant first,
    after a minus sign when it is negative. The digits are produced from the
    last one on; a number has no more digits than bits. *)
Fixpoint digitsOf (fuel : nat) (n : N) (acc : jsstring) : jsstring :=
  match fuel with
  | 0 => acc
  | S fuel' =>
      let acc' := (48 + n mod 10)%N :: acc in
      if (n / 10 =? 0)%N then acc' else digitsOf fuel' (n / 10) acc'
  end.

Definition decimal (n : N) : jsstring :=
  digitsOf (S (N.to_nat (N.log2 n))) n [].

Definition numberToString (n : Z) : jsstring :=
  if (n <? 0)%Z then lit "-" ++ decimal (Z.abs_N n) else decimal (Z.to_N n).

(** [s.padStart(target, fill)] for a one-unit [fill], and [s.slice(-k)]. *)
Definition padStart (target : nat) (fill : codeUnit) (s : jsstring) : jsstring :=
  replicate (target - length s) fill ++ s.

Definition sliceLast (k : nat) (s : jsstring) : jsstring :=
  drop (length s - k) s.

Definition months : list jsstring :=
  [ lit "JAN"; lit "FEB"; lit "MAR"; lit "APR"; lit "MAY"; lit "JUN";
    lit "JUL"; lit "AUG"; lit "SEP"; lit "OCT"; lit "NOV"; lit "DEC" ].

(** [`${day}-${month}-${year}`]; an index outside the array gives
    [undefined], which the template spells out. *)
Definition formatDateForFMCSA (date : jsDate) : jsstring :=
  let day := padStart 2 48%N (numberToString (Z.of_N (getDate date))) in
  let month := default (lit "undefined") (months !! N.to_nat (getMonth date)) in
  let year := sliceLast 2 (numberToString (getFullYear date)) in
  day ++ lit "-" ++ month ++ lit "-" ++ year.

(** The two decimal digits of a number below 100. *)
Definition twoDigits (n : N) : jsstring := [(48 + n / 10)%N; (48 + n mod 10)%N].

End DateFormat.

(** ** The requests the handlers answer

    Both handlers start their [try] block with [const { date } = req.body] and
    [date || formatDateForFMCSA(new Date())], and then await [axios.post]
    with that date. The serverless handler looks at [req.method] before. *)

Module Requests.

(** [req.body] as the handlers read it. Reading it throws when it is
    [undefined] or [null] (the destructuring throws a [TypeError]) or when
    the platform fails to parse it; [message] is the message of the error
    thrown. Of a body that can be read only the [date] property is used: a
    string, or [None] when it is [undefined] or [null]. *)
Inductive requestBody : Type :=
| Unreadable (message : string)
| Readable (date : option jsstring).

Record VercelRequest := Request {
  method : string;
  body : requestBody
}.

(** What [await axios.post(...)] gives: a response whose [data] is a string;
    a response whose [data] is something else (axios parses a JSON answer),
    on which [response.data.toUpperCase()] throws a [TypeError] with
    [message]; or a rejection. *)
Inductive posted : Type :=
| Text (data : jsstring)
| NotText (message : string)
| Refused (message : string).

Section Requests.

Variable toUpperCase : jsstring → jsstring.
Variable cheerioText : jsstring → jsstring.
(** [new Date()] at the start of the request and [new Date().toISOString()]
    at its end. *)
Variable today : DateFormat.jsDate.
Variable now : jsstring.
(** The register site: what the request for a register date gives. *)
Variable post : jsstring → posted.

(** The [catch] block. *)
Definition caught (message : string) : response :=
  Response 500 (Failure "Failed to scrape FMCSA register data" (Some message) []).

(** [date || formatDateForFMCSA(new Date())]; the empty string is falsy. *)
Definition registerDateOf (date : option jsstring) : jsstring :=
  match date with
  | Some (c :: s) => c :: s
  | Some [] | None => DateFormat.formatDateForFMCSA today
  end.

(** The [try] block with its [catch], up to the text of the validation
    error. *)
Definition serve (invalid : string) (b : requestBody) : outcome response :=
  match b with
  | Unreadable message => Done (caught message)
  | Readable date =>
      let registerDate := registerDateOf date in
      match post registerDate with
      | Text data => scrape toUpperCase cheerioText registerDate now invalid (Page data)
      | NotText message => Done (caught message)
      | Refused message =>
          scrape toUpperCase cheerioText registerDate now invalid (Rejected message)
      end
  end.

(** The callback of [app.post('/api/fmcsa-register', ...)]. *)
Definition route (b : requestBody) : outcome response :=
  serve "Invalid response from FMCSA. The page might not be available for this date." b.

(** The serverless handler. *)
Definition handler (req : VercelRequest) : outcome response :=
  if String.eqb (method req) "OPTIONS" then Done (Response 200 NoBody)
  else if negb (String.eqb (method req) "POST") then
    Done (Response 405 (ErrorOnly "Method not allowed"))
  else serve "Invalid response from FMCSA" (body req).

End Requests.

End Requests.

(** ** The other functions of the persistence service *)

Module ServiceQueries.

Import Service.

(** The requests these functions send: a [select] with the clauses of
    [Service.query], [select(columns).neq(column, null)], and
    [delete().lt(column, value)]. *)
Inductive request : Type :=
| SelectWhere (q : query)
| SelectNotNull (table columns column : string)
| DeleteBefore (table column : string) (value : jsstring).

Inductive effect : Type :=
| Request (r : request)
| ConsoleError (label message : string).

(** A value stored under a key of the [byCategory] object: a count, or the
    text that [+ 1] makes of a value that is not a number. *)
Inductive jsValue : Type :=
| VNum (n : N)
| VStr (s : jsstring).

#[global] Instance jsValue_eq_dec : EqDecision jsValue.
Proof. solve_decision. Defined.

Record statistics := Statistics {
  totalEntries : nat;
  byCategory : gmap (list N) jsValue;
  dateRange : jsstring * jsstring
}.

Record deleteResult := DeleteResult {
  deleteSuccess : bool;
  deleteError : option string;
  deleted : option nat
}.

(** A [Set] of strings keeps its elements in insertion order. *)
Definition setAdd (s : list jsstring) (x : jsstring) : list jsstring :=
  if bool_decide (x ∈ s) then s else s ++ [x].

(** The default order of [Array.prototype.sort]: strings compared code unit
    by code unit. The sorted array of distinct strings is the same whatever
    the sorting algorithm. *)
Fixpoint jsLt (a b : jsstring) : bool :=
  match a, b with
  | [], [] => false
  | [], _ :: _ => true
  | _ :: _, [] => false
  | x :: a', y :: b' => (x <? y)%N || ((x =? y)%N && jsLt a' b')
  end.

Fixpoint insertSorted (x : jsstring) (l : list jsstring) : list jsstring :=
  match l with
  | [] => [x]
  | y :: l' => if jsLt y x then y :: insertSorted x l' else x :: y :: l'
  end.

Definition sortStrings (l : list jsstring) : list jsstring :=
  foldr insertSorted [] l.

Definition PROTO : jsstring := lit "__proto__".
Definition UNCATEGORIZED : jsstring := lit "UNCATEGORIZED".

Section Client.

(** The rows the store returns are objects of which these functions read
    the [category] only, which may be [null]. *)
Variable Row : Type.
Variable categoryOf : Row → option jsstring.

(** The Supabase client. *)
Variable send : request → reply (list Row).

(** [String(Object.prototype[k])] for the names [k] that [Object.prototype]
    defines ("constructor", "toString", ...), [None] for every other
    name. *)
Variable inheritedText : jsstring → option jsstring.

(** [getFMCSAEntriesByDate] *)
Definition getFMCSAEntriesByDate (date : jsstring) : list Row * list effect :=
  let r := SelectWhere (Query "fmcsa_register" "*"
                          [Eq "date_fetched" date; Order "number" true]) in
  match send r with
  | Answer _ (Some message) =>
      ([], [Request r; ConsoleError "Supabase fetch error:" message])
  | Answer data None => (default [] data, [Request r])
  | Reject message =>
      ([], [Request r; ConsoleError "Exception fetching entries by date:" message])
  end.

(** [getFMCSACategories] *)
Definition collectCategories (data : list Row) : list jsstring :=
  foldl (λ categories record,
           match truthy (categoryOf record) with
           | Some c => setAdd categories c
           | None => categories
           end) [] data.

Definition getFMCSACategories : list jsstring * list effect :=
  let r := SelectNotNull "fmcsa_register" "category" "category" in
  match send r with
  | Answer _ (Some message) =>
      ([], [Request r; ConsoleError "Supabase fetch error:" message])
  | Answer data None => (sortStrings (collectCategories (default [] data)), [Request r])
  | Reject message =>
      ([], [Request r; ConsoleError "Exception fetching categories:" message])
  end.

(** [byCategory[cat] = (byCategory[cat] || 0) + 1]: a key the object does
    not have is looked up in [Object.prototype]; adding 1 to a value that is
    not a number appends "1" to its text; an assignment to [__proto__] of a
    value that is not an object does nothing. *)
Definition countCategory (byCategory : gmap (list N) jsValue) (cat : jsstring)
  : gmap (list N) jsValue :=
  let current :=
    match byCategory !! cat with
    | Some v => Some v
    | None => VStr <$> inheritedText cat
    end in
  let next :=
    match current with
    | Some (VNum n) => VNum (n + 1)
    | Some (VStr []) | None => VNum 1
    | Some (VStr s) => VStr (s ++ lit "1")
    end in
  if strictEq cat PROTO then byCategory else <[cat := next]> byCategory.

(** [entry.category || 'UNCATEGORIZED'] *)
Definition labelOf (entry : Row) : jsstring :=
  default UNCATEGORIZED (truthy (categoryOf entry)).

(** [getFMCSAStatistics] *)
Definition getFMCSAStatistics (dateFrom dateTo : option jsstring)
  : statistics * list effect :=
  let r := SelectWhere
             (Query "fmcsa_register" "*"
                ((match truthy dateFrom with
                  | Some d => [Gte "date_fetched" d]
                  | None => []
                  end)
                 ++ (match truthy dateTo with
                     | Some d => [Lte "date_fetched" d]
                     | None => []
                     end))) in
  let range := (default [] (truthy dateFrom), default [] (truthy dateTo)) in
  match send r with
  | Answer _ (Some message) =>
      (Statistics 0 ∅ range, [Request r; ConsoleError "Supabase fetch error:" message])
  | Answer data None =>
      (Statistics (length (default [] data))
                  (foldl (λ byCategory entry, countCategory byCategory (labelOf entry))
                         ∅ (default [] data))
                  range,
       [Request r])
  | Reject message =>
      (Statistics 0 ∅ range,
       [Request r; ConsoleError "Exception fetching statistics:" message])
  end.

(** [deleteFMCSAEntriesBeforeDate] *)
Definition deleteFMCSAEntriesBeforeDate (date : jsstring) : deleteResult * list effect :=
  let r := DeleteBefore "fmcsa_register" "date_fetched" date in
  match send r with
  | Answer _ (Some message) =>
      (DeleteResult false (Some message) None,
       [Request r; ConsoleError "Supabase delete error:" message])
  | Answer data None =>
      (DeleteResult true None (Some (length (default [] data))), [Request r])
  | Reject message =>
      (DeleteResult false (Some message) None,
       [Request r; ConsoleError "Exception deleting entries:" message])
  end.

End Client.

End ServiceQueries.

(** * Specification-side definitions *)

(** ** Scenario texts *)

Definition scenarioA : jsstring := lit "MC-123456 Acme Trucking Co 01/15/2024".
Definition scenarioB : jsstring := lit "Revocations MC-123456 Acme Trucking Co 01/15/2024".
Definition scenarioF : jsstring := lit "MC-1 AAA 01/01/2020 MC-2 BBB 02/02/2020".
Definition scenarioMXMC : jsstring := lit "MX-MC-123456 Foo Corp 01/01/2020".

(** Scenario D: a docket token, a body of 600 code units and a date. *)
Definition scenarioD : jsstring :=
  lit "MC-1 " ++ replicate 600 65%N ++ lit " 01/01/2020".

(** The one match of the pattern in [scenarioD]. *)
Definition scenarioD_match : execResult :=
  ExecResult 0
    [ Some scenarioD; Some (lit "MC-1"); Some (replicate 600 65%N);
      Some (lit "01/01/2020") ]
    616.

(** The one match of the pattern in [scenarioB] and the entry made from it. *)
Definition scenarioB_match : execResult :=
  ExecResult 12
    [ Some (lit "MC-123456 Acme Trucking Co 01/15/2024"); Some (lit "MC-123456");
      Some (lit "Acme Trucking Co"); Some (lit "01/15/2024") ]
    49.

Definition scenarioB_entry : Entry :=
  mkEntry (lit "MC-123456") (lit "Acme Trucking Co") (lit "01/15/2024") (lit "REVOCATION").

(** The one match of the pattern in [scenarioMXMC]. *)
Definition scenarioMXMC_match : execResult :=
  ExecResult 0
    [ Some scenarioMXMC; Some (lit "MX-MC-123456"); Some (lit "Foo Corp");
      Some (lit "01/01/2020") ]
    32.

Definition sampleRow : Service.FMCSARegisterEntry :=
  Service.mkRow None (lit "MC-1") (lit "AAA") (lit "01/01/2020") (lit "MISCELLANEOUS")
                (lit "2020-01-01") None None.

(** ** Category assignment *)

(** [k] occurs in [w] as a substring. *)
Definition occursIn (k w : jsstring) : Prop := ∃ a b, w = a ++ k ++ b.

(** A row of the table is hit when one of its keywords occurs. *)
Definition hits (w : jsstring) (row : jsstring * list jsstring) : Prop :=
  ∃ k, k ∈ row.2 ∧ occursIn k w.

(** No keyword of the category table occurs in [w]. *)
Definition noKeywordIn (w : jsstring) : Prop :=
  Forall (λ row, ¬ hits w row) categoryKeywords.

(** The category the specification assigns to a context window: the label of
    the last row of the table, in declared order, that is hit, and
    MISCELLANEOUS when no row is. *)
Inductive assigned (w : jsstring) : jsstring → Prop :=
| assigned_default : noKeywordIn w → assigned w MISCELLANEOUS
| assigned_last pre row post :
    categoryKeywords = pre ++ row :: post →
    hits w row → Forall (λ later, ¬ hits w later) post →
    assigned w row.1.

(** ** Deduplication *)

(** The identity of an entry for deduplication. *)
Definition key (e : Entry) : jsstring * jsstring := (number e, title e).

(** Deduplication as the specification words it: going through the list in
    scan order, an entry is kept when its (number, title) pair has not been
    seen before, and dropped otherwise. *)
Fixpoint firstOccurrences (seen : list (jsstring * jsstring)) (l : list Entry)
  : list Entry :=
  match l with
  | [] => []
  | e :: l' =>
      if bool_decide (key e ∈ seen) then firstOccurrences seen l'
      else e :: firstOccurrences (key e :: seen) l'
  end.

(** ** Persistence failures *)

(** A failing query is surfaced to the caller of
    [fetchFMCSARegisterEntries]: what the caller gets differs from what it
    gets when the query succeeds and finds no rows. *)
Definition queryFailureSurfaced
    (select : Service.query → Service.reply (list Service.FMCSARegisterEntry))
    (f : option Service.filters) : Prop :=
  ∀ message,
    Service.fails (select (Service.buildQuery f)) message →
    (Service.fetchFMCSARegisterEntries select f).1
    ≠ (Service.fetchFMCSARegisterEntries (λ _, Service.Answer (Some []) None) f).1.

(** ** Docket tokens *)

Definition docketPrefixes : list jsstring :=
  [lit "MC"; lit "FF"; lit "MX"; lit "MX-MC"].

(** A docket token: one of the four prefixes, a hyphen and at least one
    digit. *)
Definition docketToken (w : jsstring) : Prop :=
  ∃ prefix digits,
    prefix ∈ docketPrefixes ∧ digits ≠ [] ∧
    Forall (λ c, isDigit c = true) digits ∧
    w = prefix ++ lit "-" ++ digits.

(** * Proof-side definitions *)

(** ** The language of a regular expression *)

Inductive lang : regex → jsstring → Prop :=
| lang_empty : lang Empty []
| lang_class p c : p c = true → lang (Class p) [c]
| lang_seq r1 r2 w1 w2 : lang r1 w1 → lang r2 w2 → lang (Seq r1 r2) (w1 ++ w2)
| lang_alt_l r1 r2 w : lang r1 w → lang (Alt r1 r2) w
| lang_alt_r r1 r2 w : lang r2 w → lang (Alt r1 r2) w
| lang_star_nil g r : lang (Star g r) []
| lang_star_more g r w1 w2 :
    lang r w1 → lang (Star g r) w2 → lang (Star g r) (w1 ++ w2)
| lang_group i r w : lang r w → lang (Group i r) w.

(** The least number of code units a match of [r] consumes. *)
Fixpoint minLen (r : regex) : nat :=
  match r with
  | Empty => 0
  | Class _ => 1
  | Seq r1 r2 => minLen r1 + minLen r2
  | Alt r1 r2 => Nat.min (minLen r1) (minLen r2)
  | Star _ _ => 0
  | Group _ r1 => minLen r1
  end.

(** The groups every match of [r] goes through, and all its groups. *)
Fixpoint sure (r : regex) : list nat :=
  match r with
  | Empty | Class _ | Alt _ _ | Star _ _ => []
  | Seq r1 r2 => sure r1 ++ sure r2
  | Group i r1 => i :: sure r1
  end.

Fixpoint groupsOf (r : regex) : list nat :=
  match r with
  | Empty | Class _ => []
  | Seq r1 r2 | Alt r1 r2 => groupsOf r1 ++ groupsOf r2
  | Star _ r1 => groupsOf r1
  | Group i r1 => i :: groupsOf r1
  end.

Definition defined (caps : captures) (i : nat) : Prop :=
  ∃ x, caps !! i = Some (Some x).

(** How the state handed to the continuation relates to the state the
    matcher of [r] started in: a word of [r] was consumed, set captures stay
    set, the groups of [sure r] are set, and only groups of [r] change. *)
Record advances (r : regex) (s : jsstring) (caps : captures)
    (s1 : jsstring) (c1 : captures) : Prop := {
  adv_word : ∃ w, s = w ++ s1 ∧ lang r w;
  adv_size : length c1 = length caps;
  adv_keep : ∀ i, defined caps i → defined c1 i;
  adv_fill : ∀ i, i ∈ sure r → i < length caps → defined c1 i;
  adv_frame : ∀ i, i ∉ groupsOf r → c1 !! i = caps !! i
}.

(** A matcher [f] behaves like a matcher of [r] on the way to [res]. *)
Definition sound_at (res : jsstring * captures) (r : regex)
    (f : jsstring → captures → cont → option (jsstring * captures)) : Prop :=
  ∀ s caps k, f s caps k = Some res →
    ∃ s1 c1, k s1 c1 = Some res ∧ advances r s caps s1 c1.

(** ** What the global replacements compute *)

(** Every code unit of the class is replaced. *)
Definition replaceEach (p : codeUnit → bool) (replacement : jsstring) (s : jsstring)
  : jsstring :=
  s ≫= λ c, if p c then replacement else [c].

(** Every maximal run of the class is replaced once; [inRun] tells whether
    the text follows a code unit of the class. *)
Fixpoint collapseRuns (p : codeUnit → bool) (replacement : jsstring) (inRun : bool)
    (s : jsstring) : jsstring :=
  match s with
  | [] => []
  | c :: s' =>
      if p c then
        (if inRun then [] else replacement) ++ collapseRuns p replacement true s'
      else c :: collapseRuns p replacement false s'
  end.

Fixpoint skipRun (p : codeUnit → bool) (s : jsstring) : jsstring :=
  match s with
  | [] => []
  | c :: s' => if p c then skipRun p s' else s
  end.

Fixpoint takeRun (p : codeUnit → bool) (s : jsstring) : jsstring :=
  match s with
  | [] => []
  | c :: s' => if p c then c :: takeRun p s' else []
  end.

(** ** Normal forms of [cleanText] *)

(** Text in which every whitespace code unit is a single space that does not
    follow another one; [afterWs] tells whether the code unit before the
    text is whitespace. *)
Fixpoint tidy (afterWs : bool) (s : jsstring) : Prop :=
  match s with
  | [] => True
  | c :: s' =>
      if isWhiteSpace c then c = SPACE ∧ afterWs = false ∧ tidy true s'
      else tidy false s'
  end.

(** The text does not start with whitespace. *)
Definition headOk (s : jsstring) : Prop :=
  match s with
  | [] => True
  | c :: _ => isWhiteSpace c = false
  end.

(** What [cleanText] computes on a string. *)
Definition normal (s : jsstring) : jsstring :=
  trim (collapseRuns isWhiteSpace (lit " ") false
          (replaceEach (N.eqb NBSP) (lit " ") s)).

(** Closes an equation whose two sides evaluate to the same value. *)
Ltac by_evaluation := vm_compute; reflexivity.

(** * Further specification-side definitions *)

(** ** Shapes of text *)

Definition allDigits (w : jsstring) : Prop := Forall (λ c, isDigit c = true) w.

(** A date-shaped token: two digits, a slash, two digits, a slash and four
    digits. *)
Definition dateShaped (d : jsstring) : Prop :=
  ∃ a b y,
    d = a ++ lit "/" ++ b ++ lit "/" ++ y ∧
    length a = 2 ∧ length b = 2 ∧ length y = 4 ∧
    allDigits a ∧ allDigits b ∧ allDigits y.

(** A non-empty run of whitespace. *)
Definition whitespaceOnly (w : jsstring) : Prop :=
  w ≠ [] ∧ Forall (λ c, isWhiteSpace c = true) w.

(** ** The matches of a scan *)

(** The successive results of [exec] from [lastIndex] on, up to the [null]
    that ends the loop. *)
Fixpoint matchChain (rawText : jsstring) (lastIndex : nat) (ms : list execResult)
  : Prop :=
  match ms with
  | [] => exec pattern patternGroups rawText lastIndex = None
  | m :: ms' =>
      exec pattern patternGroups rawText lastIndex = Some m ∧
      matchChain rawText (endIndex m) ms'
  end.

(** The spans of [ms] lie one after the other, from [from] on and within
    [upTo], each at least 16 code units long. *)
Fixpoint spansFrom (from upTo : nat) (ms : list execResult) : Prop :=
  match ms with
  | [] => True
  | m :: ms' =>
      from ≤ index m ∧ index m + 16 ≤ endIndex m ∧ endIndex m ≤ upTo ∧
      spansFrom (endIndex m) upTo ms'
  end.

(** What the loop body adds to the entries for one match. *)
Definition emitted (toUpperCase : jsstring → jsstring) (rawText : jsstring)
    (m : execResult) : list Entry :=
  match processMatch toUpperCase rawText m with
  | Done (Some e) => [e]
  | _ => []
  end.

(** A record of the pattern stands in the text at position [p]. *)
Definition recordAt (rawText : jsstring) (p : nat) : Prop :=
  ∃ w rest, drop p rawText = w ++ rest ∧ lang pattern w.

(** The two matches of the pattern in [scenarioF]. *)
Definition scenarioF_first : execResult :=
  ExecResult 0
    [ Some (lit "MC-1 AAA 01/01/2020"); Some (lit "MC-1"); Some (lit "AAA");
      Some (lit "01/01/2020") ]
    19.

Definition scenarioF_second : execResult :=
  ExecResult 20
    [ Some (lit "MC-2 BBB 02/02/2020"); Some (lit "MC-2"); Some (lit "BBB");
      Some (lit "02/02/2020") ]
    39.

(** ** Sorted arrays and counts *)

(** Strictly ascending in the order of [jsLt]: every element is below all
    the elements after it. *)
Fixpoint ascending (l : list jsstring) : Prop :=
  match l with
  | [] => True
  | x :: l' => Forall (λ y, ServiceQueries.jsLt x y = true) l' ∧ ascending l'
  end.

(** The number of rows that count for the label [c]. *)
Definition occurrences {Row} (categoryOf : Row → option jsstring) (c : jsstring)
    (data : list Row) : nat :=
  length (filter (λ row, ServiceQueries.labelOf Row categoryOf row = c) data).

(** The count stored for a label that occurs [k] times: nothing for 0. *)
Definition storedCount (k : nat) : option ServiceQueries.jsValue :=
  match k with
  | 0 => None
  | S _ => Some (ServiceQueries.VNum (N.of_nat k))
  end.

(** A label that is neither [__proto__] nor the name of a member of
    [Object.prototype]. *)
Definition plainLabel (inheritedText : jsstring → option jsstring) (c : jsstring)
  : Prop :=
  c ≠ ServiceQueries.PROTO ∧ inheritedText c = None.


(** A calendar date as [Date] reports it, in a year of at least two
    digits. *)
Definition calendarDate (d : DateFormat.jsDate) : Prop :=
  (1 ≤ DateFormat.getDate d ≤ 31)%N ∧ (DateFormat.getMonth d ≤ 11)%N ∧
  (10 ≤ DateFormat.getFullYear d)%Z.

(** ** Responses *)

(** What every response of the handlers satisfies: a success has status 200,
    a count equal to the number of its entries and no two entries with the
    same number and title; a failure has status 400 or 500 and no entries. *)
Definition wellFormedResponse (r : response) : Prop :=
  match payload r with
  | Success count _ _ es => status r = 200 ∧ count = length es ∧ NoDup (key <$> es)
  | Failure _ _ es => (status r = 400 ∨ status r = 500) ∧ es = []
  | ErrorOnly _ => status r = 405
  | NoBody => status r = 200
  end.

(** Sample data for the service. *)
Definition sampleCategories : list (option jsstring) :=
  [ Some (lit "REVOCATION"); None; Some (lit "DISMISSAL"); Some [];
    Some (lit "REVOCATION") ].

(** ** Clean text *)

(** Text as [cleanText] leaves it: whitespace occurs only as single spaces
    between other code units. *)
Definition cleanShape (t : jsstring) : Prop :=
  Forall (λ c, isWhiteSpace c = true → c = SPACE) t ∧
  (∀ a x y r, t = a ++ x :: y :: r →
     ¬ (isWhiteSpace x = true ∧ isWhiteSpace y = true)) ∧
  (∀ c r, t = c :: r → isWhiteSpace c = false) ∧
  (∀ a c, t = a ++ [c] → isWhiteSpace c = false).

(** * Properties *)

(** ** The matcher consumes a word of the expression and fills its groups *)

Module RegexFacts.

Lemma lang_minLen r w : lang r w → minLen r ≤ length w.
Proof.
  induction 1; simpl; rewrite ?length_app; lia.
Qed.

Lemma lang_seq_inv r1 r2 w :
  lang (Seq r1 r2) w → ∃ w1 w2, w = w1 ++ w2 ∧ lang r1 w1 ∧ lang r2 w2.
Proof. inversion 1; eauto. Qed.

Lemma lang_alt_inv r1 r2 w : lang (Alt r1 r2) w → lang r1 w ∨ lang r2 w.
Proof. inversion 1; eauto. Qed.

Lemma lang_class_inv p w : lang (Class p) w → ∃ c, w = [c] ∧ p c = true.
Proof. inversion 1; eauto. Qed.

Lemma lang_empty_inv w : lang Empty w → w = [].
Proof. by inversion 1. Qed.

Lemma lang_Lit str w : lang (Lit str) w → w = lit str.
Proof.
  unfold Lit. generalize (lit str). intros l. revert w.
  induction l as [|c l IH]; intros w; simpl.
  - apply lang_empty_inv.
  - intros (w1 & w2 & -> & (x & -> & Hx%N.eqb_eq)%lang_class_inv & ->%IH)%lang_seq_inv.
    by subst.
Qed.

Lemma lang_star_class g p w :
  lang (Star g (Class p)) w → Forall (λ c, p c = true) w.
Proof.
  remember (Star g (Class p)) as r eqn:Hr. intros H. revert Hr.
  induction H as [| | | | | |g' r' w1 w2 H1 _ H2 IH2|]; try discriminate.
  - constructor.
  - intros [= -> ->]. apply lang_class_inv in H1 as (c & -> & Hc).
    constructor; [done|]. by apply IH2.
Qed.

Lemma lang_plus_class g p w :
  lang (Plus g (Class p)) w → w ≠ [] ∧ Forall (λ c, p c = true) w.
Proof.
  intros (w1 & w2 & -> & (c & -> & Hc)%lang_class_inv & Hs%lang_star_class)%lang_seq_inv.
  split; [done|]. by constructor.
Qed.

(** The words of the docket expression are the docket tokens. *)
Lemma lang_docket w : lang docketRegex w → docketToken w.
Proof.
  intros (p & t & -> & Hp & Ht)%lang_seq_inv.
  apply lang_seq_inv in Ht as (h & digits & -> & ->%lang_Lit & [Hne Hd]%lang_plus_class).
  exists p, digits. split_and!; [|done..].
  unfold docketPrefixes.
  destruct (lang_alt_inv _ _ _ Hp) as [->%lang_Lit|Hp1]; [by left|].
  destruct (lang_alt_inv _ _ _ Hp1) as [->%lang_Lit|Hp2]; [by right; left|].
  destruct (lang_alt_inv _ _ _ Hp2) as [->%lang_Lit| ->%lang_Lit].
  - by right; right; left.
  - by right; right; right; left.
Qed.

Lemma defined_insert caps i j x :
  defined caps j → defined (<[i := Some x]> caps) j.
Proof.
  intros [y Hy]. destruct (decide (i = j)) as [->|Hne].
  - exists x. apply list_lookup_insert_eq. by eapply lookup_lt_Some.
  - exists y. by rewrite list_lookup_insert_ne.
Qed.

Lemma advances_here r s caps : lang r [] → sure r = [] → advances r s caps s caps.
Proof.
  intros Hl Hs. split; [by exists []|done|done| |done].
  rewrite Hs. by intros i ?%elem_of_nil.
Qed.

Lemma advances_seq r1 r2 s caps s1 c1 s2 c2 :
  advances r1 s caps s1 c1 → advances r2 s1 c1 s2 c2 →
  advances (Seq r1 r2) s caps s2 c2.
Proof.
  intros [(w1 & -> & L1) Z1 K1 F1 R1] [(w2 & -> & L2) Z2 K2 F2 R2]. split.
  - exists (w1 ++ w2). split; [by rewrite app_assoc|by constructor].
  - congruence.
  - auto.
  - simpl. intros i [Hi|Hi]%elem_of_app Hlt.
    + apply K2, F1; done.
    + apply F2; [done|congruence].
  - simpl. intros i [H1 H2]%not_elem_of_app. rewrite R2, R1; done.
Qed.

Lemma advances_star_more g r s caps s1 c1 s2 c2 :
  advances r s caps s1 c1 → advances (Star g r) s1 c1 s2 c2 →
  advances (Star g r) s caps s2 c2.
Proof.
  intros [(w1 & -> & L1) Z1 K1 F1 R1] [(w2 & -> & L2) Z2 K2 F2 R2]. split.
  - exists (w1 ++ w2). split; [by rewrite app_assoc|by constructor].
  - congruence.
  - auto.
  - simpl. by intros i ?%elem_of_nil.
  - simpl. intros i Hi. rewrite R2, R1; done.
Qed.

Lemma advances_alt r1 r2 s caps s1 c1 :
  advances r1 s caps s1 c1 ∨ advances r2 s caps s1 c1 →
  advances (Alt r1 r2) s caps s1 c1.
Proof.
  intros [[(w & -> & L) Z K F R]|[(w & -> & L) Z K F R]].
  - split; [exists w; split; [done|by apply lang_alt_l]|done|done| |].
    + simpl. by intros i ?%elem_of_nil.
    + simpl. intros i [H1 H2]%not_elem_of_app. auto.
  - split; [exists w; split; [done|by apply lang_alt_r]|done|done| |].
    + simpl. by intros i ?%elem_of_nil.
    + simpl. intros i [H1 H2]%not_elem_of_app. auto.
Qed.

Lemma advances_group i r s caps s1 c1 x :
  advances r s caps s1 c1 → advances (Group i r) s caps s1 (<[i := Some x]> c1).
Proof.
  intros [(w & -> & L) Z K F R]. split.
  - exists w. split; [done|by constructor].
  - by rewrite length_insert.
  - intros j Hj. by apply defined_insert, K.
  - simpl. intros j [->|Hj]%elem_of_cons Hlt.
    + eexists. apply list_lookup_insert_eq. lia.
    + by apply defined_insert, F.
  - simpl. intros j [Hne Hj]%not_elem_of_cons.
    rewrite list_lookup_insert_ne by done. auto.
Qed.

Lemma advances_length r s caps s1 c1 :
  advances r s caps s1 c1 → length s1 + minLen r ≤ length s.
Proof.
  intros [(w & -> & L%lang_minLen) _ _ _ _]. rewrite length_app. lia.
Qed.

Section Sound.

Variable res : jsstring * captures.

Lemma starIter_sound body greedy r k n :
  sound_at res r body →
  ∀ s caps, starIter body greedy k n s caps = Some res →
    ∃ s1 c1, k s1 c1 = Some res ∧ advances (Star greedy r) s caps s1 c1.
Proof.
  intros Hbody. induction n as [|n IH]; intros s caps; simpl.
  - intros Hk. exists s, caps. split; [done|].
    apply advances_here; [constructor|done].
  - set (again := body s caps _).
    assert (Hagain : again = Some res →
              ∃ s1 c1, k s1 c1 = Some res ∧ advances (Star greedy r) s caps s1 c1).
    { intros (s1 & c1 & Hk & Hadv)%Hbody.
      destruct (length s1 =? length s); [done|].
      apply IH in Hk as (s2 & c2 & Hk & Hadv2).
      exists s2, c2. split; [done|]. by eapply advances_star_more. }
    assert (Hstop : k s caps = Some res →
              ∃ s1 c1, k s1 c1 = Some res ∧ advances (Star greedy r) s caps s1 c1).
    { intros Hk. exists s, caps. split; [done|].
      apply advances_here; [constructor|done]. }
    destruct greedy.
    + destruct again as [x|] eqn:E; [|done].
      intros [= ->]. by apply Hagain.
    + destruct (k s caps) as [x|] eqn:E; [|done].
      intros [= ->]. by apply Hstop.
Qed.

Lemma rmatch_sound r : sound_at res r (rmatch r).
Proof.
  induction r as [|p|r1 IH1 r2 IH2|r1 IH1 r2 IH2|greedy r1 IH1|i r1 IH1];
    intros s caps k; simpl.
  - intros Hk. exists s, caps. split; [done|].
    apply advances_here; [constructor|done].
  - destruct s as [|c s']; [done|]. destruct (p c) eqn:Hc; [|done].
    intros Hk. exists s', caps. split; [done|].
    split; [exists [c]; split; [done|by constructor]|done|done| |done].
    simpl. by intros j ?%elem_of_nil.
  - intros (s1 & c1 & (s2 & c2 & Hk & Hadv2)%IH2 & Hadv1)%IH1.
    exists s2, c2. split; [done|]. by eapply advances_seq.
  - destruct (rmatch r1 s caps k) as [x|] eqn:E.
    + intros [= ->]. apply IH1 in E as (s1 & c1 & Hk & Hadv).
      exists s1, c1. split; [done|]. apply advances_alt. by left.
    + intros (s1 & c1 & Hk & Hadv)%IH2.
      exists s1, c1. split; [done|]. apply advances_alt. by right.
  - by apply starIter_sound.
  - intros (s1 & c1 & Hk & Hadv)%IH1.
    eexists s1, _. split; [exact Hk|]. by apply advances_group.
Qed.

End Sound.

(** [exec] reports a match found by the matcher at [index m]. *)
Lemma execFrom_sound r ngroups s : ∀ i m,
  execFrom r ngroups s i = Some m →
  ∃ d s1 c1,
    index m = i + d ∧ d ≤ length s ∧
    rmatch r (drop d s) (replicate (S ngroups) None) (λ s' c, Some (s', c))
    = Some (s1, c1) ∧
    groups m = <[0 := Some (take (length (drop d s) - length s1) (drop d s))]> c1 ∧
    endIndex m = index m + (length (drop d s) - length s1).
Proof.
  induction s as [|c s IH]; intros i m; simpl.
  - destruct (rmatch r [] _ _) as [[s' c']|] eqn:E; [|done].
    intros [= <-]. exists 0, s', c'. simpl. split_and!; [lia|lia|done..].
  - destruct (rmatch r (c :: s) _ _) as [[s' c']|] eqn:E.
    + intros [= <-]. exists 0, s', c'. simpl. split_and!; [lia|lia|done..].
    + intros (d & s1 & c1 & Hi & Hd & Hm & Hg & He)%IH.
      exists (S d), s1, c1. simpl. split_and!; [lia|lia|done..].
Qed.

(** A successful [exec] starts at or after [lastIndex]; the text there
    begins with a word of the expression, which is the whole match; the
    captures come from the matcher run at that place. *)
Lemma exec_sound r ngroups text lastIndex m :
  exec r ngroups text lastIndex = Some m →
  ∃ w s1 c1,
    lastIndex ≤ index m ∧ drop (index m) text = w ++ s1 ∧ lang r w ∧
    endIndex m = index m + length w ∧ endIndex m ≤ length text ∧
    rmatch r (drop (index m) text) (replicate (S ngroups) None) (λ s' c, Some (s', c))
    = Some (s1, c1) ∧
    groups m = <[0 := Some w]> c1 ∧ length c1 = S ngroups ∧
    ∀ j, j ∈ sure r → j ≤ ngroups → defined c1 j.
Proof.
  unfold exec. destruct (length text <? lastIndex) eqn:E; [done|].
  apply Nat.ltb_ge in E.
  intros (d & s1 & c1 & Hi & Hd & Hm & Hg & He)%execFrom_sound.
  rewrite drop_drop in Hm, Hg, He. rewrite length_drop in Hd.
  rewrite <- Hi in Hm, Hg, He.
  destruct (rmatch_sound _ _ _ _ _ Hm) as (s2 & c2 & [= -> ->] & Hadv).
  destruct Hadv as [(w & Hw & L) Z K F R].
  assert (Hlen : length (drop (index m) text) - length s1 = length w).
  { rewrite Hw, length_app. lia. }
  assert (Hdrop : length (drop (index m) text) = length w + length s1).
  { by rewrite Hw, length_app. }
  rewrite length_drop in Hdrop.
  exists w, s1, c1. split_and!; try done.
  - lia.
  - lia.
  - lia.
  - rewrite Hg, Hlen. rewrite Hw at 1. by rewrite take_app_length.
  - by rewrite Z, length_replicate.
  - intros j Hj Hle. apply F; [done|]. rewrite length_replicate. lia.
Qed.

Lemma exec_minLen r ngroups text lastIndex m :
  exec r ngroups text lastIndex = Some m → index m + minLen r ≤ endIndex m.
Proof.
  intros (w & s1 & c1 & _ & _ & L%lang_minLen & -> & _)%exec_sound. lia.
Qed.

(** The pattern runs its docket part and hands over to the rest with the
    docket stored as capture 1. *)
Lemma rmatch_pattern s caps k :
  rmatch pattern s caps k
  = rmatch docketRegex s caps
      (λ s1 c1, rmatch patternTail s1
                  (<[1 := Some (take (length s - length s1) s)]> c1) k).
Proof. reflexivity. Qed.

Lemma rmatch_pattern_docket s s' c' :
  rmatch pattern s (replicate 4 None) (λ s' c, Some (s', c)) = Some (s', c') →
  ∃ w rest, s = w ++ rest ∧ docketToken w ∧ c' !! 1 = Some (Some w).
Proof.
  rewrite rmatch_pattern.
  intros (s1 & c1 & Htail & [(w & -> & L) Z _ _ _])%rmatch_sound.
  apply rmatch_sound in Htail as (s2 & c2 & [= -> ->] & [_ _ _ _ R]).
  exists w, s1. split_and!; [done|by apply lang_docket|].
  rewrite R by (simpl; intros Hin; repeat (apply elem_of_cons in Hin as [?|Hin]; [done|]);
                by apply elem_of_nil in Hin).
  rewrite length_app, Nat.add_sub, take_app_length.
  apply list_lookup_insert_eq. rewrite Z. simpl. lia.
Qed.

End RegexFacts.

Import RegexFacts.

(** ** What the two global replacements compute *)

Module ReplaceFacts.

Section Generic.

Variables (r : regex) (replacement : jsstring) (out : jsstring → jsstring).

(** [out] describes the replacement if it follows the matches [exec] finds:
    the text before the first match is kept, the match is non-empty and is
    replaced, and the rest is treated the same way. *)
Hypothesis Hexec : ∀ u i,
  match execFrom r 0 u i with
  | None => out u = u
  | Some m =>
      ∃ a b rest, u = a ++ b ++ rest ∧ b ≠ [] ∧
        index m = i + length a ∧ endIndex m = i + length a + length b ∧
        out u = a ++ replacement ++ out rest
  end.

Lemma replaceLoop_out text fuel : ∀ li acc,
  li ≤ length text → length text - li + 2 ≤ fuel →
  replaceLoop fuel r 0 replacement text li li acc = Done (acc ++ out (drop li text)).
Proof.
  induction fuel as [|fuel IH]; intros li acc Hli Hfuel; [lia|].
  simpl. unfold exec.
  destruct (length text <? li) eqn:E; [apply Nat.ltb_lt in E; lia|].
  specialize (Hexec (drop li text) li).
  destruct (execFrom r 0 (drop li text) li) as [m|].
  - destruct Hexec as (a & b & rest & Hu & Hb & Hi & He & Hout).
    assert (Hlen : length a + length b + length rest = length text - li).
    { rewrite <- (length_drop text li), Hu, !length_app. lia. }
    assert (0 < length b) by (destruct b; [done|simpl; lia]).
    replace (endIndex m =? index m) with false
      by (symmetry; apply Nat.eqb_neq; lia).
    rewrite IH by lia. f_equal.
    rewrite Hi, He. replace (li + length a - li) with (length a) by lia.
    assert (Hrest : drop (li + length a + length b) text = rest).
    { replace (li + length a + length b) with (li + length (a ++ b))
        by (rewrite length_app; lia).
      by rewrite <- drop_drop, Hu, app_assoc, drop_app_length. }
    rewrite Hrest, Hout, Hu, take_app_length.
    by rewrite <- !app_assoc.
  - by rewrite Hexec.
Qed.

Lemma replaceAll_out text : replaceAll r 0 replacement text = Done (out text).
Proof. unfold replaceAll. rewrite replaceLoop_out; [done|lia|lia]. Qed.

End Generic.

Lemma execFrom_class p replacement u i :
  match execFrom (Class p) 0 u i with
  | None => replaceEach p replacement u = u
  | Some m =>
      ∃ a b rest, u = a ++ b ++ rest ∧ b ≠ [] ∧
        index m = i + length a ∧ endIndex m = i + length a + length b ∧
        replaceEach p replacement u = a ++ replacement ++ replaceEach p replacement rest
  end.
Proof.
  revert i. induction u as [|c u IH]; intros i; [done|].
  cbn [execFrom rmatch]. destruct (p c) eqn:Hc.
  - exists [], [c], u. cbn. rewrite Hc.
    split_and!; [done|done|lia| |done].
    rewrite Nat.sub_succ_l, Nat.sub_diag by lia. lia.
  - specialize (IH (S i)). destruct (execFrom (Class p) 0 u (S i)) as [m|].
    + destruct IH as (a & b & rest & -> & Hb & Hi & He & Hout).
      exists (c :: a), b, rest. cbn. rewrite Hc. cbn.
      split_and!; [done|done|lia|lia|]. f_equal. exact Hout.
    + cbn. rewrite Hc. cbn. f_equal. exact IH.
Qed.

Lemma replaceEach_cons p replacement c s :
  replaceEach p replacement (c :: s)
  = (if p c then replacement else [c]) ++ replaceEach p replacement s.
Proof. reflexivity. Qed.

Lemma takeRun_skipRun p s : takeRun p s ++ skipRun p s = s.
Proof. induction s as [|c s IH]; [done|]. simpl. destruct (p c); simpl; congruence. Qed.

Lemma skipRun_length p s : length (skipRun p s) ≤ length s.
Proof. induction s as [|c s IH]; simpl; [lia|]. destruct (p c); simpl; lia. Qed.

Lemma collapseRuns_skip p replacement s :
  collapseRuns p replacement true s = collapseRuns p replacement false (skipRun p s).
Proof.
  induction s as [|c s IH]; [done|]. simpl. destruct (p c) eqn:Hc; [done|].
  simpl. by rewrite Hc.
Qed.

Lemma starIter_class p caps n : ∀ s,
  length s ≤ n →
  starIter (rmatch (Class p)) true (λ s' c, Some (s', c)) n s caps
  = Some (skipRun p s, caps).
Proof.
  induction n as [|n IH]; intros s Hn.
  - destruct s; [done|simpl in Hn; lia].
  - cbn [starIter rmatch]. destruct s as [|c s]; [done|].
    simpl. destruct (p c) eqn:Hc; [|done].
    replace (length s =? S (length s)) with false
      by (symmetry; apply Nat.eqb_neq; lia).
    rewrite IH by (simpl in Hn; lia). done.
Qed.

Lemma execFrom_run p replacement u i :
  match execFrom (Plus true (Class p)) 0 u i with
  | None => collapseRuns p replacement false u = u
  | Some m =>
      ∃ a b rest, u = a ++ b ++ rest ∧ b ≠ [] ∧
        index m = i + length a ∧ endIndex m = i + length a + length b ∧
        collapseRuns p replacement false u
        = a ++ replacement ++ collapseRuns p replacement false rest
  end.
Proof.
  revert i. induction u as [|c u IH]; intros i; [done|].
  unfold Plus. cbn [execFrom rmatch]. destruct (p c) eqn:Hc.
  - pose proof (starIter_class p (replicate 1 None) (length u) u (le_n _)) as Hs.
    cbn [rmatch] in Hs. rewrite Hs. clear Hs.
    exists [], (c :: takeRun p u), (skipRun p u). cbn [app length index endIndex].
    split_and!.
    + by rewrite takeRun_skipRun.
    + done.
    + lia.
    + pose proof (skipRun_length p u).
      assert (length (takeRun p u) + length (skipRun p u) = length u)
        by (by rewrite <- length_app, takeRun_skipRun).
      lia.
    + cbn. rewrite Hc. by rewrite collapseRuns_skip.
  - fold (Plus true (Class p)).
    specialize (IH (S i)). destruct (execFrom (Plus true (Class p)) 0 u (S i)) as [m|].
    + destruct IH as (a & b & rest & -> & Hb & Hi & He & Hout).
      exists (c :: a), b, rest. cbn. rewrite Hc.
      split_and!; [done|done|lia|lia|]. f_equal. exact Hout.
    + cbn. rewrite Hc. f_equal. exact IH.
Qed.

Lemma replaceAll_whitespaceRun s :
  replaceAll whitespaceRun 0 (lit " ") s
  = Done (collapseRuns isWhiteSpace (lit " ") false s).
Proof. apply replaceAll_out. intros u i. apply execFrom_run. Qed.

Lemma replaceAll_nbsp s :
  replaceAll nbsp 0 (lit " ") s = Done (replaceEach (N.eqb NBSP) (lit " ") s).
Proof. apply replaceAll_out. intros u i. apply execFrom_class. Qed.

End ReplaceFacts.

Import ReplaceFacts.


(** ** The scan loop *)

Section ScanFacts.

Variable toUpperCase : jsstring → jsstring.

Lemma pattern_minLen : minLen pattern = 16.
Proof. reflexivity. Qed.

Lemma pattern_sure : sure pattern = [1; 2; 3].
Proof. reflexivity. Qed.

Lemma defined_capture c1 w m j :
  groups m = <[0 := Some w]> c1 → 0 < j → defined c1 j →
  ∃ x, capture m j = Some x.
Proof.
  intros Hg Hj [x Hx]. exists x. unfold capture.
  rewrite Hg, list_lookup_insert_ne by lia. by rewrite Hx.
Qed.

(** Every match of the docket pattern has its three captures, the first of
    them a docket token standing in the text at [index m]; the match starts
    at or after [lastIndex] and ends further on, within the text. *)
Lemma exec_pattern rawText lastIndex m :
  exec pattern patternGroups rawText lastIndex = Some m →
  (∃ docket rawInfo decidedDate rest,
     capture m 1 = Some docket ∧ capture m 2 = Some rawInfo ∧
     capture m 3 = Some decidedDate ∧
     docketToken docket ∧ drop (index m) rawText = docket ++ rest) ∧
  lastIndex ≤ index m ∧ index m + 16 ≤ endIndex m ∧ endIndex m ≤ length rawText.
Proof.
  intros E. pose proof (exec_minLen _ _ _ _ _ E) as Hmin.
  rewrite pattern_minLen in Hmin.
  apply exec_sound in E as (w & s1 & c1 & Hi & Hw & _ & _ & He & Hm & Hg & _ & Hs).
  rewrite pattern_sure in Hs. unfold patternGroups in *.
  destruct (rmatch_pattern_docket _ _ _ Hm) as (d & rest & Hd & Htok & H1).
  destruct (defined_capture c1 w m 2 Hg) as [b Hb];
    [lia|apply Hs; [repeat constructor|lia]|].
  destruct (defined_capture c1 w m 3 Hg) as [t Ht];
    [lia|apply Hs; [repeat constructor|lia]|].
  split; [|done].
  exists d, b, t, rest. split_and!; [|done..].
  unfold capture. rewrite Hg, list_lookup_insert_ne by lia. by rewrite H1.
Qed.

(** The loop body on a match with its captures: the cleaned title decides
    between [continue] and a new entry. *)
Lemma processMatch_captured rawText m docket rawInfo decidedDate :
  capture m 1 = Some docket → capture m 2 = Some rawInfo →
  capture m 3 = Some decidedDate →
  ∃ collapsed,
    replaceAll whitespaceRun 0 (lit " ") rawInfo = Done collapsed ∧
    processMatch toUpperCase rawText m =
    Done (if 500 <? length (trim collapsed) then None
          else Some (mkEntry docket (trim collapsed) decidedDate
                       (detectCategory (contextText toUpperCase rawText (index m))))).
Proof.
  intros H1 H2 H3. eexists. split; [apply replaceAll_whitespaceRun|].
  unfold processMatch. rewrite H1, H2, H3, replaceAll_whitespaceRun. simpl.
  by destruct (500 <? _).
Qed.

Lemma processMatch_done rawText lastIndex m :
  exec pattern patternGroups rawText lastIndex = Some m →
  ∃ step, processMatch toUpperCase rawText m = Done step.
Proof.
  intros [(d & b & t & rest & H1 & H2 & H3 & _) _]%exec_pattern.
  destruct (processMatch_captured rawText m d b t H1 H2 H3) as (c & _ & ->).
  eauto.
Qed.

(** The loop body keeps only titles of at most 500 code units, takes the
    number from the docket token and labels the entry from the context
    window of its match. *)
Lemma processMatch_entry rawText lastIndex m e :
  exec pattern patternGroups rawText lastIndex = Some m →
  processMatch toUpperCase rawText m = Done (Some e) →
  length (title e) ≤ 500 ∧
  capture m 1 = Some (number e) ∧ capture m 3 = Some (decided e) ∧
  docketToken (number e) ∧
  category e = detectCategory (contextText toUpperCase rawText (index m)).
Proof.
  intros [(d & b & t & rest & H1 & H2 & H3 & Htok & _) _]%exec_pattern.
  destruct (processMatch_captured rawText m d b t H1 H2 H3) as (c & _ & ->).
  destruct (500 <? length (trim c)) eqn:E; [done|].
  apply Nat.ltb_ge in E. intros [= <-]. done.
Qed.

(** The loop returns: each match moves [lastIndex] forward, so the fuel of
    [scanEntries] is never used up. *)
Lemma scanLoop_done rawText fuel : ∀ lastIndex entries,
  length rawText - lastIndex < fuel →
  ∃ es, scanLoop toUpperCase fuel rawText lastIndex entries = Done es.
Proof.
  induction fuel as [|fuel IH]; intros li entries Hfuel; [lia|].
  simpl. destruct (exec pattern patternGroups rawText li) as [m|] eqn:E; [|eauto].
  destruct (processMatch_done _ _ _ E) as [step ->]. simpl.
  apply exec_pattern in E as (_ & ? & ? & ?).
  apply IH. lia.
Qed.

(** An invariant of the accumulator that every emitted entry maintains holds
    of the scan's result. *)
Lemma scanLoop_invariant (P : list Entry → Prop) rawText :
  (∀ entries lastIndex m e,
     P entries → exec pattern patternGroups rawText lastIndex = Some m →
     processMatch toUpperCase rawText m = Done (Some e) → P (entries ++ [e])) →
  ∀ fuel lastIndex entries es,
    P entries → scanLoop toUpperCase fuel rawText lastIndex entries = Done es → P es.
Proof.
  intros Hstep. induction fuel as [|fuel IH]; intros li entries es HP; [done|].
  simpl. destruct (exec pattern patternGroups rawText li) as [m|] eqn:E.
  - destruct (processMatch toUpperCase rawText m) as [[e|]| |] eqn:Em; simpl; [| |done..].
    + apply IH. by eapply Hstep.
    + by apply IH.
  - by intros [= <-].
Qed.

Lemma scanEntries_done rawText : ∃ es, scanEntries toUpperCase rawText = Done es.
Proof. apply scanLoop_done. lia. Qed.

(** Every scanned entry was emitted by the loop body for some match. *)
Lemma scanEntries_provenance rawText es :
  scanEntries toUpperCase rawText = Done es →
  Forall (λ e, ∃ lastIndex m,
            exec pattern patternGroups rawText lastIndex = Some m ∧
            processMatch toUpperCase rawText m = Done (Some e)) es.
Proof.
  apply scanLoop_invariant; [|constructor].
  intros entries li m e HP E Em. apply Forall_app. split; [done|].
  constructor; [eauto|constructor].
Qed.

Lemma filterFrom_sublist {A} (p : A → nat → bool) l : ∀ i, filterFrom p i l `sublist_of` l.
Proof.
  induction l as [|x l IH]; intros i; simpl; [done|].
  destruct (p x i); [by apply sublist_skip|by apply sublist_cons].
Qed.

Lemma uniqueEntries_sublist entries : uniqueEntries entries `sublist_of` entries.
Proof. apply filterFrom_sublist. Qed.

Lemma extractEntries_scan rawText :
  ∃ scanned, scanEntries toUpperCase rawText = Done scanned ∧
             extractEntries toUpperCase rawText = Done (uniqueEntries scanned).
Proof.
  destruct (scanEntries_done rawText) as [scanned Hs].
  exists scanned. split; [done|]. unfold extractEntries. by rewrite Hs.
Qed.

(** Every extracted entry was emitted by the loop body for some match. *)
Lemma extractEntries_provenance rawText es e :
  extractEntries toUpperCase rawText = Done es → e ∈ es →
  ∃ lastIndex m,
    exec pattern patternGroups rawText lastIndex = Some m ∧
    processMatch toUpperCase rawText m = Done (Some e).
Proof.
  destruct (extractEntries_scan rawText) as (scanned & Hs & ->).
  intros [= <-] He.
  apply (elem_of_sublist _ scanned) in He; [|apply uniqueEntries_sublist].
  apply scanEntries_provenance in Hs. rewrite Forall_forall in Hs. auto.
Qed.

End ScanFacts.

(** ** Category detection *)

Module CategoryFacts.

Lemma startsWith_spec s k : startsWith s k = true ↔ ∃ b, s = k ++ b.
Proof.
  revert s. induction k as [|c k IH]; intros s; simpl.
  - split; [intros _; by exists s|done].
  - destruct s as [|d s]; simpl.
    + split; [done|]. intros [b Hb]. discriminate.
    + rewrite andb_true_iff, N.eqb_eq, IH. split.
      * intros [-> [b ->]]. by exists b.
      * intros [b [= -> ->]]. eauto.
Qed.

Lemma includes_spec w k : includes w k = true ↔ occursIn k w.
Proof.
  induction w as [|c w IH]; simpl.
  - rewrite orb_false_r, startsWith_spec. split.
    + intros [b Hb]. by exists [], b.
    + intros [a [b Hab]]. destruct a; simpl in Hab; [by exists b|discriminate].
  - rewrite orb_true_iff, startsWith_spec, IH. split.
    + intros [[b Hb]|[a [b Hab]]].
      * by exists [], b.
      * exists (c :: a), b. simpl. by rewrite Hab.
    + intros [[|x a] [b Hab]]; simpl in Hab.
      * left. by exists b.
      * right. injection Hab as -> ->. by exists a, b.
Qed.

Lemma some_includes_spec w (row : jsstring * list jsstring) :
  existsb (λ k, includes w k) row.2 = true ↔ hits w row.
Proof.
  rewrite existsb_exists. unfold hits. split.
  - intros (k & Hk%list_elem_of_In & Hi%includes_spec). eauto.
  - intros (k & Hk%list_elem_of_In & Hi%includes_spec). eauto.
Qed.

(** The category loop over any table: the last hit row wins, and without a
    hit the initial value stays. *)
Lemma category_loop w (table : list (jsstring * list jsstring)) : ∀ init,
  let result :=
    foldl (λ category (row : jsstring * list jsstring),
             if existsb (λ k, includes w k) row.2 then row.1 else category)
          init table in
  (Forall (λ row, ¬ hits w row) table ∧ result = init) ∨
  (∃ pre row post, table = pre ++ row :: post ∧ hits w row ∧
     Forall (λ row, ¬ hits w row) post ∧ result = row.1).
Proof.
  induction table as [|row table IH]; intros init; simpl.
  - left. by split.
  - destruct (IH (if existsb (λ k, includes w k) row.2 then row.1 else init))
      as [[Hnone Hres]|(pre & row' & post & -> & Hhit & Hpost & Hres)].
    + destruct (existsb (λ k, includes w k) row.2) eqn:E.
      * right. exists [], row, table. apply some_includes_spec in E. done.
      * left. split; [|done]. constructor; [|done].
        intros Hh%some_includes_spec. congruence.
    + right. exists (row :: pre), row', post. done.
Qed.

Lemma detectCategory_assigned w : assigned w (detectCategory w).
Proof.
  unfold detectCategory.
  destruct (category_loop w categoryKeywords MISCELLANEOUS)
    as [[Hnone ->]|(pre & row & post & Htab & Hhit & Hpost & ->)].
  - by apply assigned_default.
  - by eapply assigned_last.
Qed.

Lemma detectCategory_none w : noKeywordIn w → detectCategory w = MISCELLANEOUS.
Proof.
  intros Hno. unfold detectCategory.
  destruct (category_loop w categoryKeywords MISCELLANEOUS)
    as [[_ Hres]|(pre & row & post & Htab & Hhit & _ & _)]; [done|].
  unfold noKeywordIn in Hno. rewrite Htab in Hno.
  apply Forall_app in Hno as [_ Hno]. apply Forall_cons_1 in Hno as [Hrow _].
  done.
Qed.

(** The assignment is a function of the window. *)
Lemma assigned_unique w c1 c2 : assigned w c1 → assigned w c2 → c1 = c2.
Proof.
  assert (Hsplit : ∀ (pre1 pre2 post1 post2 : list (jsstring * list jsstring)) r1 r2,
            pre1 ++ r1 :: post1 = pre2 ++ r2 :: post2 →
            hits w r1 → hits w r2 →
            Forall (λ later, ¬ hits w later) post1 →
            Forall (λ later, ¬ hits w later) post2 → r1 = r2).
  { induction pre1 as [|x pre1 IH]; intros [|y pre2] post1 post2 r1 r2 Heq H1 H2 F1 F2;
      simpl in Heq; injection Heq as -> Heq.
    - done.
    - subst post1. apply Forall_app in F1 as [_ F1].
      apply Forall_cons_1 in F1 as [F1 _]. done.
    - subst post2. apply Forall_app in F2 as [_ F2].
      apply Forall_cons_1 in F2 as [F2 _]. done.
    - by eapply IH. }
  intros [Hno1|pre1 r1 post1 Ht1 Hh1 Hp1] [Hno2|pre2 r2 post2 Ht2 Hh2 Hp2].
  - done.
  - unfold noKeywordIn in Hno1. rewrite Ht2 in Hno1.
    apply Forall_app in Hno1 as [_ Hno1]. apply Forall_cons_1 in Hno1 as [Hno1 _]. done.
  - unfold noKeywordIn in Hno2. rewrite Ht1 in Hno2.
    apply Forall_app in Hno2 as [_ Hno2]. apply Forall_cons_1 in Hno2 as [Hno2 _]. done.
  - f_equal. apply (Hsplit pre1 pre2 post1 post2); [congruence|done..].
Qed.

End CategoryFacts.

Import CategoryFacts.

(** ** Deduplication *)

Module DedupFacts.

Lemma sameKeyAs_spec entry e : sameKeyAs entry e = true ↔ key e = key entry.
Proof.
  unfold sameKeyAs, strictEq, key.
  rewrite andb_true_iff, !bool_decide_eq_true. split.
  - by intros [-> ->].
  - by intros [= -> ->].
Qed.

Lemma findIndex_here {A} (p : A → bool) pre x l :
  Forall (λ y, ¬ Is_true (p y)) pre → Is_true (p x) →
  findIndex p (pre ++ x :: l) = Z.of_nat (length pre).
Proof.
  intros Hpre Hx. unfold findIndex.
  rewrite list_find_app_r by by apply list_find_None.
  simpl. rewrite decide_True by done. simpl. f_equal.
Qed.

Lemma findIndex_before {A} (p : A → bool) pre l y :
  y ∈ pre → Is_true (p y) →
  (findIndex p (pre ++ l) < Z.of_nat (length pre))%Z.
Proof.
  intros Hy Hp. unfold findIndex.
  destruct (list_find_elem_of (λ x, Is_true (p x)) pre y Hy Hp) as [[i z] Hfind].
  rewrite (list_find_app_l _ _ _ _ _ Hfind).
  apply list_find_Some in Hfind as (Hi%lookup_lt_Some & _). lia.
Qed.

Lemma filterFrom_firstOccurrences entries : ∀ l pre seen,
  entries = pre ++ l →
  (∀ k, k ∈ seen ↔ k ∈ key <$> pre) →
  filterFrom
    (λ entry index, (Z.of_nat index =? findIndex (sameKeyAs entry) entries)%Z)
    (length pre) l
  = firstOccurrences seen l.
Proof.
  induction l as [|e l IH]; intros pre seen Hentries Hseen; [done|].
  simpl. destruct (bool_decide (key e ∈ seen)) eqn:Hin.
  - apply bool_decide_eq_true in Hin.
    apply Hseen, list_elem_of_fmap in Hin as (y & Hkey & Hy).
    assert (Hlt : (findIndex (sameKeyAs e) entries < Z.of_nat (length pre))%Z).
    { rewrite Hentries. apply findIndex_before with y; [done|].
      apply Is_true_true, sameKeyAs_spec. done. }
    replace (Z.of_nat (length pre) =? _)%Z with false
      by (symmetry; apply Z.eqb_neq; lia).
    replace (S (length pre)) with (length (pre ++ [e])) by (rewrite length_app; simpl; lia).
    apply IH; [by rewrite <- app_assoc|].
    intros k. rewrite Hseen, fmap_app, elem_of_app. simpl.
    rewrite list_elem_of_singleton. split; [auto|].
    intros [? | ->]; [done|]. apply list_elem_of_fmap. eauto.
  - apply bool_decide_eq_false in Hin.
    rewrite Hentries at 1.
    rewrite findIndex_here.
    + rewrite Z.eqb_refl. f_equal.
      replace (S (length pre)) with (length (pre ++ [e]))
        by (rewrite length_app; simpl; lia).
      apply IH; [by rewrite <- app_assoc|].
      intros k. rewrite elem_of_cons, Hseen, fmap_app, elem_of_app. simpl.
      rewrite list_elem_of_singleton. tauto.
    + apply Forall_forall. intros y Hy Hp%Is_true_true%sameKeyAs_spec.
      apply Hin, Hseen, list_elem_of_fmap. eauto.
    + apply Is_true_true, sameKeyAs_spec. done.
Qed.

Lemma uniqueEntries_firstOccurrences entries :
  uniqueEntries entries = firstOccurrences [] entries.
Proof.
  unfold uniqueEntries, filterIndexed.
  apply (filterFrom_firstOccurrences entries entries [] []); [done|].
  intros k. simpl. done.
Qed.

Lemma firstOccurrences_sublist l : ∀ seen, firstOccurrences seen l `sublist_of` l.
Proof.
  induction l as [|e l IH]; intros seen; simpl; [done|].
  destruct (bool_decide _).
  - by apply sublist_cons.
  - by apply sublist_skip.
Qed.

Lemma firstOccurrences_fresh l : ∀ seen e,
  e ∈ firstOccurrences seen l → key e ∉ seen.
Proof.
  induction l as [|x l IH]; intros seen e; simpl; [by intros ?%elem_of_nil|].
  destruct (bool_decide (key x ∈ seen)) eqn:Hin.
  - apply IH.
  - apply bool_decide_eq_false in Hin.
    intros [->|He]%elem_of_cons; [done|].
    apply IH in He. rewrite not_elem_of_cons in He. tauto.
Qed.

Lemma firstOccurrences_NoDup l : ∀ seen, NoDup (key <$> firstOccurrences seen l).
Proof.
  induction l as [|x l IH]; intros seen; simpl; [constructor|].
  destruct (bool_decide (key x ∈ seen)); [apply IH|].
  simpl. constructor; [|apply IH].
  intros (y & Hkey & Hy%firstOccurrences_fresh)%list_elem_of_fmap.
  apply Hy. rewrite Hkey. by left.
Qed.

(** The first entry with a given key is kept. *)
Lemma firstOccurrences_keeps l : ∀ seen pre e post,
  l = pre ++ e :: post → key e ∉ seen → key e ∉ key <$> pre →
  e ∈ firstOccurrences seen l.
Proof.
  induction l as [|x l IH]; intros seen pre e post Hl Hseen Hpre.
  - by destruct pre.
  - simpl. destruct pre as [|y pre]; simpl in Hl; injection Hl as -> ->.
    + rewrite bool_decide_eq_false_2 by done. by left.
    + rewrite fmap_cons, not_elem_of_cons in Hpre. destruct Hpre as [Hne Hpre].
      destruct (bool_decide (key y ∈ seen)).
      * by eapply IH.
      * right. eapply IH; [done| |done].
        rewrite not_elem_of_cons. done.
Qed.

End DedupFacts.

Import DedupFacts.

(** ** Normalisation *)

Module CleanFacts.

Lemma tidy_collapse s : ∀ b, tidy b (collapseRuns isWhiteSpace (lit " ") b s).
Proof.
  induction s as [|c s IH]; intros b; simpl; [done|].
  destruct (isWhiteSpace c) eqn:Hc.
  - destruct b; simpl; [apply IH|]. split_and!; [done..|apply IH].
  - simpl. rewrite Hc. apply IH.
Qed.

Lemma tidy_weaken b s : tidy b s → tidy false s.
Proof.
  destruct s as [|c s]; simpl; [done|].
  destruct (isWhiteSpace c); [|done]. by intros (-> & -> & ?).
Qed.

Lemma tidy_suffix a : ∀ b s, tidy b (a ++ s) → tidy false s.
Proof.
  induction a as [|c a IH]; intros b s; simpl; [apply tidy_weaken|].
  destruct (isWhiteSpace c).
  - intros (_ & _ & H). by eapply IH.
  - apply IH.
Qed.

Lemma tidy_prefix s : ∀ b r, tidy b (s ++ r) → tidy b s.
Proof.
  induction s as [|c s IH]; intros b r; simpl; [done|].
  destruct (isWhiteSpace c).
  - intros (? & ? & H). split_and!; [done..|]. by eapply IH.
  - apply IH.
Qed.

Lemma trimStart_suffix s : ∃ a, s = a ++ trimStart s.
Proof.
  induction s as [|c s [a IH]]; simpl; [by exists []|].
  destruct (isWhiteSpace c).
  - exists (c :: a). simpl. by rewrite <- IH.
  - by exists [].
Qed.

Lemma trimEnd_prefix s : ∃ r, s = trimEnd s ++ r.
Proof.
  unfold trimEnd. destruct (trimStart_suffix (reverse s)) as [a Ha].
  exists (reverse a).
  rewrite <- reverse_app, <- Ha. by rewrite reverse_involutive.
Qed.

Lemma tidy_trim s : tidy false s → tidy false (trim s).
Proof.
  intros H. unfold trim.
  destruct (trimStart_suffix s) as [a Ha].
  destruct (trimEnd_prefix (trimStart s)) as [r Hr].
  rewrite Ha in H. apply tidy_suffix in H. rewrite Hr in H.
  by apply tidy_prefix in H.
Qed.

Lemma tidy_collapse_fixed s : ∀ b,
  tidy b s → collapseRuns isWhiteSpace (lit " ") b s = s.
Proof.
  induction s as [|c s IH]; intros b; simpl; [done|].
  destruct (isWhiteSpace c).
  - intros (-> & -> & H). simpl. f_equal. by apply IH.
  - intros H. f_equal. by apply IH.
Qed.

Lemma tidy_replaceEach_fixed s : ∀ b,
  tidy b s → replaceEach (N.eqb NBSP) (lit " ") s = s.
Proof.
  induction s as [|c s IH]; intros b; [done|].
  rewrite replaceEach_cons. cbn [tidy].
  destruct (isWhiteSpace c) eqn:Hc.
  - intros (-> & -> & H). cbn. f_equal. by eapply IH.
  - intros H. destruct (N.eqb_spec NBSP c) as [<-|_]; [done|].
    cbn. f_equal. by eapply IH.
Qed.

Lemma trimStart_headOk s : headOk (trimStart s).
Proof.
  induction s as [|c s IH]; simpl; [done|].
  destruct (isWhiteSpace c) eqn:Hc; [done|]. simpl. done.
Qed.

Lemma trimStart_fixed s : headOk s → trimStart s = s.
Proof. destruct s as [|c s]; simpl; [done|]. by intros ->. Qed.

Lemma trimStart_snoc w c :
  isWhiteSpace c = false → trimStart (w ++ [c]) = trimStart w ++ [c].
Proof.
  intros Hc. induction w as [|d w IH]; simpl; [by rewrite Hc|].
  by destruct (isWhiteSpace d).
Qed.

Lemma trimEnd_headOk s : headOk s → headOk (trimEnd s).
Proof.
  destruct s as [|c s]; simpl; [done|]. intros Hc. unfold trimEnd.
  rewrite reverse_cons, trimStart_snoc, reverse_snoc by done. done.
Qed.

Lemma trimEnd_trimEnd s : trimEnd (trimEnd s) = trimEnd s.
Proof.
  unfold trimEnd. rewrite reverse_involutive.
  by rewrite (trimStart_fixed _ (trimStart_headOk _)).
Qed.

Lemma trim_trim s : trim (trim s) = trim s.
Proof.
  unfold trim.
  rewrite (trimStart_fixed (trimEnd (trimStart s))).
  - apply trimEnd_trimEnd.
  - apply trimEnd_headOk, trimStart_headOk.
Qed.

Lemma cleanText_normal s : cleanText (Some s) = Done (normal s).
Proof.
  unfold cleanText. destruct s as [|c s]; [done|].
  rewrite replaceAll_nbsp. cbn [mbind outcome_bind].
  by rewrite replaceAll_whitespaceRun.
Qed.

Lemma normal_tidy s : tidy false (normal s).
Proof. apply tidy_trim, tidy_collapse. Qed.

Lemma normal_normal s : normal (normal s) = normal s.
Proof.
  unfold normal at 1.
  rewrite (tidy_replaceEach_fixed _ _ (normal_tidy s)).
  rewrite (tidy_collapse_fixed _ _ (normal_tidy s)).
  apply trim_trim.
Qed.

End CleanFacts.

Import CleanFacts.

(** ** The matcher finds what is there, and the lazy body stops early *)

Module MatcherFacts.

Lemma starIter_stop body greedy k n s caps :
  (∀ c, is_Some (k s c)) → is_Some (starIter body greedy k n s caps).
Proof.
  intros Hk. destruct n as [|n]; simpl; [done|]. destruct greedy.
  - destruct (body s caps _); [eauto|done].
  - destruct (Hk caps) as [x Hx]. rewrite Hx. eauto.
Qed.

Lemma starIter_complete r greedy :
  (∀ w, lang r w → ∀ s1 caps k,
     (∀ c, is_Some (k s1 c)) → is_Some (rmatch r (w ++ s1) caps k)) →
  ∀ w, lang (Star greedy r) w → ∀ n s1 caps k,
    length (w ++ s1) ≤ n → (∀ c, is_Some (k s1 c)) →
    is_Some (starIter (rmatch r) greedy k n (w ++ s1) caps).
Proof.
  intros IHr w H. remember (Star greedy r) as R eqn:HR. revert HR.
  induction H as [| | | | | |g r' w1 w2 H1 _ H2 IH2|]; try discriminate.
  - intros _ n s1 caps k _ Hk. by apply starIter_stop.
  - intros [= -> ->] n s1 caps k Hn Hk.
    destruct w1 as [|c w1]; [by apply IH2|].
    destruct n as [|n]; [simpl in Hn; lia|].
    cbn [starIter].
    set (again := rmatch r _ caps _).
    assert (Hagain : is_Some again).
    { subst again. rewrite <- app_assoc. apply IHr; [done|]. intros c0.
      replace (length (w2 ++ s1) =? length ((c :: w1) ++ w2 ++ s1)) with false
        by (symmetry; apply Nat.eqb_neq; rewrite !length_app; simpl; lia).
      apply IH2; [done| |done].
      rewrite <- app_assoc, !length_app in Hn. simpl in Hn.
      rewrite length_app. lia. }
    destruct Hagain as [x Hx]. rewrite Hx.
    destruct greedy; [eauto|]. destruct (k _ caps); eauto.
Qed.

(** When a word of [r] stands at the start of the input and the
    continuation accepts what follows it, the matcher succeeds. *)
Lemma rmatch_complete r : ∀ w, lang r w → ∀ s1 caps k,
  (∀ c, is_Some (k s1 c)) → is_Some (rmatch r (w ++ s1) caps k).
Proof.
  induction r as [|p|r1 IH1 r2 IH2|r1 IH1 r2 IH2|greedy r1 IH1|i r1 IH1];
    intros w Hw s1 caps k Hk.
  - apply lang_empty_inv in Hw as ->. simpl. apply Hk.
  - apply lang_class_inv in Hw as (c & -> & Hc). simpl. rewrite Hc. apply Hk.
  - apply lang_seq_inv in Hw as (w1 & w2 & -> & L1 & L2).
    simpl. rewrite <- app_assoc. apply IH1; [done|].
    intros c. by apply IH2.
  - simpl. destruct (lang_alt_inv _ _ _ Hw) as [L|L].
    + destruct (IH1 w L s1 caps k Hk) as [x ->]. eauto.
    + destruct (rmatch r1 (w ++ s1) caps k); [eauto|]. by apply IH2.
  - simpl. by apply starIter_complete.
  - inversion Hw as [| | | | | | |i' r' w' L]; subst.
    simpl. apply IH1; [done|]. intros c. apply Hk.
Qed.

(** A lazy [[\s\S]*?] hands over to the continuation at the first place
    where the continuation succeeds. *)
Lemma starIter_lazy_any k res caps n : ∀ s,
  starIter (rmatch anyUnit) false k n s caps = Some res →
  ∃ j, j ≤ length s ∧ k (drop j s) caps = Some res ∧
       ∀ i, i < j → k (drop i s) caps = None.
Proof.
  induction n as [|n IH]; intros s; cbn [starIter].
  - intros Hk. exists 0. split_and!; [lia|done|lia].
  - destruct (k s caps) as [x|] eqn:Ek.
    + intros [= ->]. exists 0. split_and!; [lia|done|lia].
    + destruct s as [|c s]; [done|]. cbn [rmatch anyUnit].
      replace (isWhiteSpace c || negb (isWhiteSpace c)) with true
        by (by destruct (isWhiteSpace c)).
      replace (length s =? length (c :: s)) with false
        by (symmetry; apply Nat.eqb_neq; simpl; lia).
      intros (j & Hj & Hk & Hmin)%IH.
      exists (S j). split_and!; [simpl; lia|done|].
      intros [|i] Hi; [done|]. apply Hmin. lia.
Qed.

(** *** The words of the pieces of the pattern *)

Lemma lang_Lit_word str : lang (Lit str) (lit str).
Proof.
  unfold Lit. induction (lit str) as [|c l IH]; simpl; [constructor|].
  apply (lang_seq _ _ [c] l); [|done]. constructor. apply N.eqb_refl.
Qed.

Lemma lang_Rep_class n p : ∀ w,
  lang (Rep n (Class p)) w ↔ length w = n ∧ Forall (λ c, p c = true) w.
Proof.
  induction n as [|n IH]; intros w; simpl.
  - split.
    + intros ->%lang_empty_inv. by split.
    + intros [Hl _]. destruct w; [constructor|done].
  - split.
    + intros (w1 & w2 & -> & (c & -> & Hc)%lang_class_inv & [Hl Hf]%IH)%lang_seq_inv.
      split; [simpl; lia|by constructor].
    + intros [Hl Hf]. destruct w as [|c w]; [done|].
      apply Forall_cons_1 in Hf as [Hc Hf].
      apply (lang_seq _ _ [c] w); [by constructor|].
      apply IH. split; [simpl in Hl; lia|done].
Qed.

Lemma lang_star_class_word g p w :
  Forall (λ c, p c = true) w → lang (Star g (Class p)) w.
Proof.
  induction 1 as [|c w Hc _ IH]; [constructor|].
  apply (lang_star_more g _ [c] w); [by constructor|done].
Qed.

Lemma lang_whitespaceRun w : lang whitespaceRun w ↔ whitespaceOnly w.
Proof.
  unfold whitespaceOnly, whitespaceRun. split; [apply lang_plus_class|].
  intros [Hne Hf]. destruct w as [|c w]; [done|].
  apply Forall_cons_1 in Hf as [Hc Hf].
  apply (lang_seq _ _ [c] w); [by constructor|by apply lang_star_class_word].
Qed.

Lemma lang_dateRegex d : lang dateRegex d ↔ dateShaped d.
Proof.
  unfold dateShaped, allDigits, dateRegex. split.
  - intros (a & t1 & -> & [La Fa]%lang_Rep_class & H1)%lang_seq_inv.
    apply lang_seq_inv in H1 as (s1 & t2 & -> & ->%lang_Lit & H2).
    apply lang_seq_inv in H2 as (b & t3 & -> & [Lb Fb]%lang_Rep_class & H3).
    apply lang_seq_inv in H3 as (s2 & y & -> & ->%lang_Lit & [Ly Fy]%lang_Rep_class).
    by exists a, b, y.
  - intros (a & b & y & -> & La & Lb & Ly & Fa & Fb & Fy).
    apply lang_seq; [by apply lang_Rep_class|].
    apply lang_seq; [apply lang_Lit_word|].
    apply lang_seq; [by apply lang_Rep_class|].
    apply lang_seq; [apply lang_Lit_word|by apply lang_Rep_class].
Qed.

(** *** The anatomy of a match *)

Lemma rmatch_patternTail s caps k :
  rmatch patternTail s caps k
  = rmatch whitespaceRun s caps
      (λ s1 c1,
         starIter (rmatch anyUnit) false
           (λ s2 c2,
              rmatch (Seq whitespaceRun (Group 3 dateRegex)) s2
                (<[2 := Some (take (length s1 - length s2) s1)]> c2) k)
           (length s1) s1 c1).
Proof. reflexivity. Qed.

Lemma rmatch_dateTail s caps k :
  rmatch (Seq whitespaceRun (Group 3 dateRegex)) s caps k
  = rmatch whitespaceRun s caps
      (λ s1 c1,
         rmatch dateRegex s1 c1
           (λ s2 c2, k s2 (<[3 := Some (take (length s1 - length s2) s1)]> c2))).
Proof. reflexivity. Qed.

Lemma take_app_sub {A} (w s : list A) : take (length (w ++ s) - length s) (w ++ s) = w.
Proof. by rewrite length_app, Nat.add_sub, take_app_length. Qed.

(** After the docket token come whitespace, the body, whitespace and a
    date; captures 2 and 3 are the body and the date, and no earlier end of
    the body is followed by whitespace and a date. *)
Lemma rmatch_patternTail_parts s caps s' c' :
  length caps = 4 →
  rmatch patternTail s caps (λ s' c, Some (s', c)) = Some (s', c') →
  ∃ ws1 body ws2 d,
    s = ws1 ++ body ++ ws2 ++ d ++ s' ∧
    whitespaceOnly ws1 ∧ whitespaceOnly ws2 ∧ dateShaped d ∧
    c' !! 1 = caps !! 1 ∧ c' !! 2 = Some (Some body) ∧ c' !! 3 = Some (Some d) ∧
    ∀ i, i < length body →
      ¬ ∃ w t, drop i (body ++ ws2 ++ d ++ s') = w ++ t ∧
               lang (Seq whitespaceRun dateRegex) w.
Proof.
  intros Hcaps. rewrite rmatch_patternTail.
  intros (s1 & c1 & Hstar & [(ws1 & -> & L1) Z1 _ _ R1])%rmatch_sound.
  apply starIter_lazy_any in Hstar as (j & Hj & Hk & Hmin).
  rewrite length_drop in Hk.
  replace (length s1 - (length s1 - j)) with j in Hk by lia.
  pose proof Hk as Hk'. rewrite rmatch_dateTail in Hk'.
  apply rmatch_sound in Hk' as (s2 & c2 & Hd & [(ws2 & Hs2 & L2) Z2 _ _ R2]).
  apply rmatch_sound in Hd as (s3 & c3 & [= -> <-] & [(d & -> & L3) Z3 _ _ R3]).
  rewrite take_app_sub.
  exists ws1, (take j s1), ws2, d.
  assert (Hs1 : s1 = take j s1 ++ ws2 ++ d ++ s').
  { rewrite <- Hs2. by rewrite take_drop. }
  split_and!.
  - by rewrite <- Hs1.
  - by apply lang_whitespaceRun.
  - by apply lang_whitespaceRun.
  - by apply lang_dateRegex.
  - rewrite list_lookup_insert_ne by lia. rewrite R3, R2 by (simpl; apply not_elem_of_nil).
    rewrite list_lookup_insert_ne by lia. apply R1. simpl. apply not_elem_of_nil.
  - rewrite list_lookup_insert_ne by lia. rewrite R3, R2 by (simpl; apply not_elem_of_nil).
    apply list_lookup_insert_eq. lia.
  - apply list_lookup_insert_eq. rewrite Z3, Z2, length_insert. lia.
  - rewrite <- Hs1. rewrite length_take. intros i Hi (w & t & Hw & Lw).
    assert (Hnone := Hmin i ltac:(lia)).
    rewrite Hw in Hnone.
    apply lang_seq_inv in Lw as (w1 & w2 & -> & Lw1 & Lw2).
    assert (Hsome : is_Some
              (rmatch (Seq whitespaceRun (Group 3 dateRegex)) ((w1 ++ w2) ++ t)
                 (<[2 := Some (take (length s1 - length ((w1 ++ w2) ++ t)) s1)]> c1)
                 (λ s' c, Some (s', c)))).
    { apply rmatch_complete; [|eauto].
      apply lang_seq; [done|by constructor]. }
    rewrite Hnone in Hsome. by destruct Hsome.
Qed.

(** Every match of the pattern, piece by piece. *)
Lemma exec_pattern_parts rawText lastIndex m :
  exec pattern patternGroups rawText lastIndex = Some m →
  ∃ docket ws1 body ws2 d rest,
    drop (index m) rawText = docket ++ ws1 ++ body ++ ws2 ++ d ++ rest ∧
    endIndex m = index m + length (docket ++ ws1 ++ body ++ ws2 ++ d) ∧
    docketToken docket ∧ whitespaceOnly ws1 ∧ whitespaceOnly ws2 ∧ dateShaped d ∧
    capture m 1 = Some docket ∧ capture m 2 = Some body ∧ capture m 3 = Some d ∧
    ∀ i, i < length body →
      ¬ ∃ w t, drop i (body ++ ws2 ++ d ++ rest) = w ++ t ∧
               lang (Seq whitespaceRun dateRegex) w.
Proof.
  intros (w & s1 & c1 & _ & Hw & _ & He & _ & Hm & Hg & Hlen & _)%exec_sound.
  rewrite rmatch_pattern in Hm.
  apply rmatch_sound in Hm as (s2 & c2 & Htail & [(docket & Hdoc & Ld) Z2 _ _ _]).
  rewrite Hdoc, take_app_sub in Htail.
  apply rmatch_patternTail_parts in Htail
    as (ws1 & body & ws2 & d & -> & W1 & W2 & D & C1 & C2 & C3 & Hmin);
    [|by rewrite length_insert, Z2, length_replicate].
  rewrite list_lookup_insert_eq in C1 by (rewrite Z2, length_replicate; unfold patternGroups; lia).
  exists docket, ws1, body, ws2, d, s1.
  assert (Hword : w = docket ++ ws1 ++ body ++ ws2 ++ d).
  { rewrite Hdoc in Hw. apply (app_inv_tail s1). rewrite <- Hw.
    by rewrite <- !app_assoc. }
  unfold capture. rewrite Hg, !list_lookup_insert_ne by lia.
  rewrite C1, C2, C3. split_and!; try done.
  - by rewrite He, Hword.
  - by apply lang_docket.
Qed.

End MatcherFacts.

Import MatcherFacts.

(** ** The scan visits the records in order and misses none *)

Module ScanOrderFacts.

Section Chain.

Variable toUpperCase : jsstring → jsstring.

(** [exec] returns the leftmost match: the matcher fails at every place it
    tried before. *)
Lemma execFrom_leftmost r ngroups s : ∀ i,
  match execFrom r ngroups s i with
  | Some m =>
      ∀ d, i + d < index m →
        rmatch r (drop d s) (replicate (S ngroups) None) (λ s' c, Some (s', c)) = None
  | None =>
      ∀ d, rmatch r (drop d s) (replicate (S ngroups) None) (λ s' c, Some (s', c)) = None
  end.
Proof.
  induction s as [|c s IH]; intros i; simpl.
  - destruct (rmatch r [] _ _) as [[s' c']|] eqn:E; simpl; [lia|].
    intros d. by rewrite drop_nil.
  - destruct (rmatch r (c :: s) _ _) as [[s' c']|] eqn:E; simpl; [lia|].
    specialize (IH (S i)). destruct (execFrom r ngroups s (S i)) as [m|].
    + intros [|d] Hd; [done|]. simpl. apply IH. lia.
    + intros [|d]; [done|]. simpl. apply IH.
Qed.

Lemma lang_pattern_length w : lang pattern w → 16 ≤ length w.
Proof. intros L%lang_minLen. by rewrite pattern_minLen in L. Qed.

Lemma recordAt_fails rawText p :
  rmatch pattern (drop p rawText) (replicate (S patternGroups) None)
    (λ s' c, Some (s', c)) = None →
  ¬ recordAt rawText p.
Proof.
  intros Hnone (w & rest & Hw & L). rewrite Hw in Hnone.
  assert (Hsome : is_Some
            (rmatch pattern (w ++ rest) (replicate (S patternGroups) None)
               (λ s' c, Some (s', c))))
    by (apply rmatch_complete; [done|eauto]).
  rewrite Hnone in Hsome. by destruct Hsome.
Qed.

(** No record stands between [lastIndex] and the match [exec] returns, and
    none at or after [lastIndex] when it returns [null]. *)
Lemma exec_leftmost rawText lastIndex :
  match exec pattern patternGroups rawText lastIndex with
  | Some m => ∀ p, lastIndex ≤ p → p < index m → ¬ recordAt rawText p
  | None => ∀ p, lastIndex ≤ p → ¬ recordAt rawText p
  end.
Proof.
  unfold exec. destruct (length rawText <? lastIndex) eqn:E.
  - apply Nat.ltb_lt in E. intros p Hp (w & rest & Hw & L%lang_pattern_length).
    rewrite drop_ge in Hw by lia. symmetry in Hw.
    apply app_eq_nil in Hw as [-> _]. simpl in L. lia.
  - pose proof (execFrom_leftmost pattern patternGroups (drop lastIndex rawText) lastIndex)
      as H.
    destruct (execFrom pattern patternGroups (drop lastIndex rawText) lastIndex) as [m|].
    + intros p Hp Hlt. apply recordAt_fails.
      replace p with (lastIndex + (p - lastIndex)) by lia.
      rewrite <- drop_drop. apply H. lia.
    + intros p Hp. apply recordAt_fails.
      replace p with (lastIndex + (p - lastIndex)) by lia.
      rewrite <- drop_drop. apply H.
Qed.

(** The loop goes through a chain of matches and collects what its body
    emits for each, in that order. *)
Lemma scanLoop_chain rawText fuel : ∀ lastIndex entries es,
  scanLoop toUpperCase fuel rawText lastIndex entries = Done es →
  ∃ ms, matchChain rawText lastIndex ms ∧
        es = entries ++ (ms ≫= emitted toUpperCase rawText).
Proof.
  induction fuel as [|fuel IH]; intros li entries es; [done|].
  simpl. destruct (exec pattern patternGroups rawText li) as [m|] eqn:E.
  - destruct (processMatch toUpperCase rawText m) as [[e|]| |] eqn:Em; simpl; [| |done..].
    + intros (ms & Hch & ->)%IH. exists (m :: ms). split; [done|].
      cbn. unfold emitted at 2. rewrite Em. by rewrite <- app_assoc.
    + intros (ms & Hch & ->)%IH. exists (m :: ms). split; [done|].
      cbn. unfold emitted at 2. by rewrite Em.
  - intros [= <-]. exists []. split; [done|]. by rewrite app_nil_r.
Qed.

Lemma matchChain_spans rawText ms : ∀ lastIndex,
  matchChain rawText lastIndex ms → spansFrom lastIndex (length rawText) ms.
Proof.
  induction ms as [|m ms IH]; intros li; simpl; [done|].
  intros [E Hch]. apply exec_pattern in E as (_ & ? & ? & ?).
  split_and!; [done..|]. by apply IH.
Qed.

Lemma matchChain_covers rawText ms : ∀ lastIndex p,
  matchChain rawText lastIndex ms → lastIndex ≤ p → recordAt rawText p →
  ∃ m, m ∈ ms ∧ index m ≤ p ∧ p < endIndex m.
Proof.
  induction ms as [|m ms IH]; intros li p; simpl.
  - intros E Hp Hrec. pose proof (exec_leftmost rawText li) as H.
    rewrite E in H. by destruct (H p Hp).
  - intros [E Hch] Hp Hrec. pose proof (exec_leftmost rawText li) as H.
    rewrite E in H.
    destruct (decide (p < index m)) as [Hlt|Hge]; [by destruct (H p Hp Hlt)|].
    destruct (decide (p < endIndex m)) as [Hin|Hout].
    + exists m. split_and!; [by left|lia|done].
    + destruct (IH (endIndex m) p Hch ltac:(lia) Hrec) as (m' & Hm' & ?).
      exists m'. split; [by right|done].
Qed.

Lemma spansFrom_count from upTo ms :
  spansFrom from upTo ms → ms ≠ [] → from + 16 * length ms ≤ upTo.
Proof.
  revert from. induction ms as [|m ms IH]; intros from; simpl; [done|].
  intros (H1 & H2 & H3 & Hsp) _. destruct ms as [|m' ms]; [simpl; lia|].
  specialize (IH (endIndex m) Hsp ltac:(done)). simpl in *. lia.
Qed.

Lemma emitted_length rawText ms :
  length (ms ≫= emitted toUpperCase rawText) ≤ length ms.
Proof.
  induction ms as [|m ms IH]; [done|]. cbn. rewrite length_app.
  unfold emitted at 1.
  destruct (processMatch toUpperCase rawText m) as [[e|]| |]; simpl; lia.
Qed.

(** What the loop body emits for a match, in terms of the pieces of the
    match. *)
Lemma processMatch_parts rawText lastIndex m e :
  exec pattern patternGroups rawText lastIndex = Some m →
  processMatch toUpperCase rawText m = Done (Some e) →
  ∃ rawInfo,
    capture m 2 = Some rawInfo ∧
    title e = trim (collapseRuns isWhiteSpace (lit " ") false rawInfo) ∧
    dateShaped (decided e) ∧
    category e = detectCategory (contextText toUpperCase rawText (index m)).
Proof.
  intros E Em.
  destruct (exec_pattern_parts _ _ _ E)
    as (docket & ws1 & body & ws2 & d & rest & _ & _ & _ & _ & _ & D & H1 & H2 & H3 & _).
  destruct (processMatch_captured toUpperCase rawText m docket body d H1 H2 H3)
    as (c & Hc & Hp).
  rewrite replaceAll_whitespaceRun in Hc. injection Hc as <-.
  rewrite Hp in Em. destruct (500 <? _); [done|]. injection Em as <-.
  exists body. done.
Qed.

End Chain.

Lemma detectCategory_label w : detectCategory w ∈ Page.categories.
Proof.
  assert (Htable : Forall (λ row, row.1 ∈ Page.categories) categoryKeywords)
    by (apply (bool_decide_unpack _); vm_compute; exact I).
  unfold detectCategory.
  destruct (category_loop w categoryKeywords MISCELLANEOUS)
    as [[_ ->]|(pre & row & post & Htab & _ & _ & ->)].
  - apply (bool_decide_unpack _). vm_compute. exact I.
  - rewrite Forall_forall in Htable. apply Htable. rewrite Htab.
    apply elem_of_app. right. by left.
Qed.

Lemma firstOccurrences_fixed l : ∀ seen,
  NoDup (key <$> l) → (∀ e, e ∈ l → key e ∉ seen) →
  firstOccurrences seen l = l.
Proof.
  induction l as [|e l IH]; intros seen Hnd Hfresh; [done|].
  simpl. rewrite bool_decide_eq_false_2 by (apply Hfresh; by left).
  f_equal. rewrite fmap_cons in Hnd. apply NoDup_cons in Hnd as [Hne Hnd].
  apply IH; [done|]. intros x Hx [Heq|Hin]%elem_of_cons.
  - apply Hne. rewrite <- Heq. apply list_elem_of_fmap. eauto.
  - apply (Hfresh x); [by right|done].
Qed.

Lemma firstOccurrences_key_kept l : ∀ seen e,
  e ∈ l → key e ∉ seen →
  ∃ e', e' ∈ firstOccurrences seen l ∧ key e' = key e.
Proof.
  induction l as [|x l IH]; intros seen e He Hseen; [by apply elem_of_nil in He|].
  simpl. apply elem_of_cons in He as [->|He].
  - rewrite bool_decide_eq_false_2 by done. exists x. split; [by left|done].
  - destruct (bool_decide (key x ∈ seen)) eqn:Hx; [by apply IH|].
    destruct (decide (key e = key x)) as [Heq|Hne].
    + exists x. split; [by left|done].
    + destruct (IH (key x :: seen) e He) as (e' & He' & Hk).
      * rewrite not_elem_of_cons. done.
      * exists e'. split; [by right|done].
Qed.

End ScanOrderFacts.

Import ScanOrderFacts.

(** ** Decimal digits and the register date *)

Module DateFacts.

Import DateFormat.

Lemma digitsOf_acc fuel : ∀ n acc, digitsOf fuel n acc = digitsOf fuel n [] ++ acc.
Proof.
  induction fuel as [|fuel IH]; intros n acc; simpl; [done|].
  destruct (n / 10 =? 0)%N; [done|].
  rewrite IH, (IH _ [_]). by rewrite <- app_assoc.
Qed.

Lemma digitsOf_S fuel n acc :
  digitsOf (S fuel) n acc
  = if (n / 10 =? 0)%N then (48 + n mod 10)%N :: acc
    else digitsOf fuel (n / 10) ((48 + n mod 10)%N :: acc).
Proof. reflexivity. Qed.

(** The digits do not depend on the fuel once it covers the bits. *)
Lemma digitsOf_fuel f1 : ∀ f2 n,
  (n < 2 ^ N.of_nat (S f1))%N → (n < 2 ^ N.of_nat (S f2))%N →
  digitsOf (S f1) n [] = digitsOf (S f2) n [].
Proof.
  induction f1 as [|f1 IH]; intros f2 n H1 H2;
    rewrite (digitsOf_S _ n), (digitsOf_S f2 n);
    destruct (n / 10 =? 0)%N eqn:E; try done; apply N.eqb_neq in E.
  - change (2 ^ N.of_nat 1)%N with 2%N in H1.
    rewrite N.div_small in E by lia. done.
  - destruct f2 as [|f2].
    + change (2 ^ N.of_nat 1)%N with 2%N in H2.
      rewrite N.div_small in E by lia. done.
    + rewrite digitsOf_acc, (digitsOf_acc (S f2)). f_equal.
      rewrite Nat2N.inj_succ, N.pow_succ_r' in H1, H2.
      apply IH; apply N.Div0.div_lt_upper_bound; lia.
Qed.

Lemma decimal_small n : (n < 10)%N → decimal n = [(48 + n)%N].
Proof.
  intros H. unfold decimal. rewrite digitsOf_S.
  by rewrite N.div_small, N.mod_small by done.
Qed.

Lemma decimal_step n :
  (10 ≤ n)%N → decimal n = decimal (n / 10) ++ [(48 + n mod 10)%N].
Proof.
  intros H. unfold decimal. rewrite digitsOf_S.
  assert (Hq : (0 < n / 10)%N) by (apply N.div_str_pos; lia).
  replace (n / 10 =? 0)%N with false by (symmetry; apply N.eqb_neq; lia).
  destruct (N.log2_spec n ltac:(lia)) as [Hlo Hhi].
  destruct (N.log2_spec (n / 10)%N Hq) as [Hlo' Hhi'].
  destruct (N.to_nat (N.log2 n)) as [|f] eqn:Ef.
  - assert (N.log2 n = 0%N) as Hz by lia. rewrite Hz in Hhi.
    change (2 ^ N.succ 0)%N with 2%N in Hhi. lia.
  - rewrite digitsOf_acc. f_equal. apply digitsOf_fuel.
    + rewrite <- Ef, N2Nat.id. rewrite N.pow_succ_r' in Hhi.
      apply N.Div0.div_lt_upper_bound; lia.
    + by rewrite Nat2N.inj_succ, N2Nat.id.
Qed.

Lemma decimal_two n : (10 ≤ n)%N → (n < 100)%N → decimal n = twoDigits n.
Proof.
  intros Hlo Hhi. rewrite decimal_step by done.
  rewrite decimal_small by (apply N.Div0.div_lt_upper_bound; lia). done.
Qed.

(** The last two digits are those of the number modulo 100. *)
Lemma decimal_last_two n :
  (10 ≤ n)%N → sliceLast 2 (decimal n) = twoDigits (n mod 100).
Proof.
  intros H.
  assert (Hr : (n mod 100 = 10 * ((n / 10) mod 10) + n mod 10)%N).
  { pose proof (N.div_mod n 100 ltac:(lia)) as E100.
    pose proof (N.div_mod n 10 ltac:(lia)) as E10.
    pose proof (N.div_mod (n / 10) 10 ltac:(lia)) as E1.
    rewrite N.Div0.div_div in E1. change (10 * 10)%N with 100%N in E1. lia. }
  assert (Hr0 : (n mod 10 < 10)%N) by (apply N.mod_lt; lia).
  assert (Hd : (n mod 100 / 10 = (n / 10) mod 10)%N).
  { rewrite Hr. symmetry. by apply (N.div_unique _ 10 _ (n mod 10)%N). }
  assert (Hm : ((n mod 100) mod 10 = n mod 10)%N).
  { rewrite Hr. symmetry. by apply (N.mod_unique _ 10 ((n / 10) mod 10)%N). }
  unfold twoDigits. rewrite Hd, Hm.
  rewrite decimal_step by done.
  destruct (decide (n / 10 < 10)%N) as [Hs|Hb].
  - rewrite decimal_small by done. rewrite (N.mod_small (n / 10)) by done. reflexivity.
  - rewrite (decimal_step (n / 10)) by lia.
    unfold sliceLast. rewrite <- app_assoc, !length_app. simpl.
    replace (length (decimal (n / 10 / 10)) + 2 - 2)
      with (length (decimal (n / 10 / 10))) by lia.
    by rewrite drop_app_length.
Qed.

Lemma twoDigits_inj a b :
  (a < 100)%N → (b < 100)%N → twoDigits a = twoDigits b → a = b.
Proof.
  intros Ha Hb [= H1 H2].
  rewrite (N.div_mod a 10), (N.div_mod b 10) by lia. lia.
Qed.

Lemma day_digits d :
  (d < 100)%N → padStart 2 48%N (numberToString (Z.of_N d)) = twoDigits d.
Proof.
  intros H. unfold numberToString.
  replace (Z.of_N d <? 0)%Z with false by (symmetry; apply Z.ltb_ge; lia).
  rewrite N2Z.id. destruct (decide (d < 10)%N) as [Hs|Hb].
  - rewrite decimal_small by done. unfold twoDigits.
    rewrite N.div_small, N.mod_small by done. done.
  - rewrite decimal_two by lia. done.
Qed.

Lemma year_digits y :
  (10 ≤ y)%Z →
  sliceLast 2 (numberToString y) = twoDigits (Z.to_N y mod 100).
Proof.
  intros H. unfold numberToString.
  replace (y <? 0)%Z with false by (symmetry; apply Z.ltb_ge; lia).
  apply decimal_last_two. lia.
Qed.

End DateFacts.

Import DateFacts.

Module DateShapeFacts.

Import DateFormat.

Lemma months_lookup i :
  (i ≤ 11)%N → ∃ m, months !! N.to_nat i = Some m ∧ length m = 3.
Proof.
  intros Hi.
  destruct (lookup_lt_is_Some_2 months (N.to_nat i)) as [m Hm]; [simpl; lia|].
  exists m. split; [done|].
  assert (Hall : Forall (λ m, length m = 3) months)
    by (apply (bool_decide_unpack _); vm_compute; exact I).
  rewrite Forall_forall in Hall. apply Hall. by eapply list_elem_of_lookup_2.
Qed.

Lemma months_NoDup : NoDup months.
Proof. apply (bool_decide_unpack _). vm_compute. exact I. Qed.

Lemma format_shape d :
  calendarDate d →
  ∃ month,
    months !! N.to_nat (getMonth d) = Some month ∧ length month = 3 ∧
    formatDateForFMCSA d
    = twoDigits (getDate d) ++ lit "-" ++ month ++ lit "-"
      ++ twoDigits (Z.to_N (getFullYear d) mod 100).
Proof.
  intros ((Hd1 & Hd2) & Hm & Hy).
  destruct (months_lookup _ Hm) as (month & Hmonth & Hlen).
  exists month. split_and!; [done..|].
  unfold formatDateForFMCSA. rewrite Hmonth. simpl default.
  rewrite day_digits by lia. by rewrite year_digits.
Qed.

End DateShapeFacts.

Import DateShapeFacts.

(** ** Sorting and counting in the service *)

Module ServiceFacts.

Import Service ServiceQueries.

Lemma jsLt_irrefl a : jsLt a a = false.
Proof.
  induction a as [|x a IH]; [done|]. simpl.
  by rewrite N.ltb_irrefl, N.eqb_refl, IH.
Qed.

Lemma jsLt_trans a : ∀ b c, jsLt a b = true → jsLt b c = true → jsLt a c = true.
Proof.
  induction a as [|x a IH]; intros [|y b] [|z c]; simpl; try done.
  rewrite !orb_true_iff, !andb_true_iff, !N.ltb_lt, !N.eqb_eq.
  intros [H1|[-> H1]] [H2|[-> H2]].
  - left. lia.
  - by left.
  - by left.
  - right. split; [done|]. by eapply IH.
Qed.

Lemma jsLt_total a : ∀ b, jsLt a b = false → jsLt b a = false → a = b.
Proof.
  induction a as [|x a IH]; intros [|y b]; simpl; try done.
  rewrite !orb_false_iff, !andb_false_iff, !N.ltb_ge, !N.eqb_neq.
  intros [H1 H1'] [H2 H2'].
  assert (x = y) as -> by lia. f_equal.
  destruct H1' as [?|H1']; [done|]. destruct H2' as [?|H2']; [done|].
  by apply IH.
Qed.

Lemma insertSorted_elem x l y : y ∈ insertSorted x l ↔ y = x ∨ y ∈ l.
Proof.
  induction l as [|z l IH]; simpl.
  - rewrite list_elem_of_singleton. split; [by left|].
    intros [?|?%elem_of_nil]; done.
  - destruct (jsLt z x).
    + rewrite !elem_of_cons, IH. tauto.
    + rewrite !elem_of_cons. tauto.
Qed.

Lemma ascending_insert x l :
  ascending l → x ∉ l → ascending (insertSorted x l).
Proof.
  induction l as [|z l IH]; simpl; [by split|].
  intros [Hz Hl] [Hne Hnin]%not_elem_of_cons.
  destruct (jsLt z x) eqn:Ezx; simpl.
  - split; [|by apply IH].
    apply Forall_forall. intros y [->|Hy]%insertSorted_elem; [done|].
    rewrite Forall_forall in Hz. by apply Hz.
  - assert (Hxz : jsLt x z = true).
    { destruct (jsLt x z) eqn:E; [done|]. by destruct Hne; apply jsLt_total. }
    split_and!; [|done..].
    constructor; [done|]. eapply Forall_impl; [exact Hz|].
    intros y Hy. by eapply jsLt_trans.
Qed.

Lemma sortStrings_elem l y : y ∈ sortStrings l ↔ y ∈ l.
Proof.
  induction l as [|x l IH]; simpl; [done|].
  rewrite insertSorted_elem, elem_of_cons, IH. done.
Qed.

Lemma sortStrings_ascending l : NoDup l → ascending (sortStrings l).
Proof.
  induction 1 as [|x l Hx _ IH]; simpl; [done|].
  apply ascending_insert; [done|]. by rewrite sortStrings_elem.
Qed.

Section Rows.

Variable Row : Type.
Variable categoryOf : Row → option jsstring.
Variable inheritedText : jsstring → option jsstring.

Lemma collect_from data : ∀ acc,
  NoDup acc →
  let result :=
    foldl (λ categories record,
             match truthy (categoryOf record) with
             | Some c => setAdd categories c
             | None => categories
             end) acc data in
  NoDup result ∧
  ∀ c, c ∈ result ↔ c ∈ acc ∨ ∃ row, row ∈ data ∧ truthy (categoryOf row) = Some c.
Proof.
  induction data as [|row data IH]; intros acc Hacc; simpl.
  - split; [done|]. intros c. split; [by left|].
    intros [?|(row & ?%elem_of_nil & _)]; done.
  - destruct (truthy (categoryOf row)) as [c0|] eqn:Ec.
    + assert (Hnd : NoDup (setAdd acc c0)).
      { unfold setAdd. case_bool_decide; [done|].
        apply NoDup_app. split_and!; [done| |apply NoDup_singleton].
        intros x Hx ->%list_elem_of_singleton. done. }
      destruct (IH _ Hnd) as [Hres Hmem]. split; [done|].
      intros c. rewrite Hmem. unfold setAdd. case_bool_decide as Hin.
      * split.
        -- intros [?|(r & Hr & Hc)]; [by left|]. right. exists r. split; [by right|done].
        -- intros [?|(r & [->|Hr]%elem_of_cons & Hc)]; [by left| |].
           ++ left. congruence.
           ++ right. eauto.
      * rewrite elem_of_app, list_elem_of_singleton. split.
        -- intros [[?| ->]|(r & Hr & Hc)]; [by left| |].
           ++ right. exists row. split; [by left|done].
           ++ right. exists r. split; [by right|done].
        -- intros [?|(r & [->|Hr]%elem_of_cons & Hc)]; [by left; left| |].
           ++ left. right. congruence.
           ++ right. eauto.
    + destruct (IH _ Hacc) as [Hres Hmem]. split; [done|].
      intros c. rewrite Hmem. split.
      * intros [?|(r & Hr & Hc)]; [by left|]. right. exists r. split; [by right|done].
      * intros [?|(r & [->|Hr]%elem_of_cons & Hc)]; [by left|congruence|].
        right. eauto.
Qed.

Lemma storedCount_succ k : storedCount (S k) = Some (VNum (N.of_nat k + 1)).
Proof. unfold storedCount. do 2 f_equal. lia. Qed.

Lemma count_from data : ∀ (m : gmap (list N) jsValue) (n : jsstring → nat),
  (∀ c, m !! c = storedCount (n c)) →
  Forall (λ row, plainLabel inheritedText (labelOf Row categoryOf row)) data →
  ∀ c,
    foldl (λ byCategory entry,
             countCategory inheritedText byCategory (labelOf Row categoryOf entry))
          m data !! c
    = storedCount (n c + occurrences categoryOf c data).
Proof.
  induction data as [|row data IH]; intros m n Hm Hsafe c.
  - simpl. unfold occurrences. simpl. by rewrite Nat.add_0_r.
  - apply Forall_cons_1 in Hsafe as [[Hproto Hinh] Hsafe]. simpl foldl.
    set (cat := labelOf Row categoryOf row) in *.
    rewrite (IH _ (λ c, n c + (if decide (cat = c) then 1 else 0))); [|clear c|done].
    + f_equal. unfold occurrences. rewrite filter_cons. fold cat.
      destruct (decide (cat = c)); simpl; lia.
    + intros c. unfold countCategory.
      replace (strictEq cat PROTO) with false
        by (symmetry; unfold strictEq; by apply bool_decide_eq_false).
      destruct (decide (cat = c)) as [<-|Hne].
      * rewrite lookup_insert_eq, Hm, Nat.add_1_r, storedCount_succ.
        destruct (n cat) as [|k]; simpl; [by rewrite Hinh|].
        reflexivity.
      * rewrite lookup_insert_ne by done. by rewrite Hm, Nat.add_0_r.
Qed.

End Rows.

End ServiceFacts.

Import ServiceFacts.

(** ** Lengths and shapes of cleaned text *)

Module CleanShapeFacts.

Lemma collapseRuns_length p x s : ∀ b, length (collapseRuns p [x] b s) ≤ length s.
Proof.
  induction s as [|c s IH]; intros b; simpl; [done|].
  destruct (p c).
  - pose proof (IH true). destruct b; simpl; lia.
  - pose proof (IH false). simpl. lia.
Qed.

Lemma trim_length s : length (trim s) ≤ length s.
Proof.
  unfold trim. destruct (trimStart_suffix s) as [a Ha].
  destruct (trimEnd_prefix (trimStart s)) as [r Hr].
  rewrite Ha at 2. rewrite Hr at 2. rewrite !length_app. lia.
Qed.

Lemma replaceEach_length p x s : length (replaceEach p [x] s) = length s.
Proof.
  induction s as [|c s IH]; [done|]. rewrite replaceEach_cons, length_app.
  destruct (p c); simpl; lia.
Qed.

Lemma normal_length s : length (normal s) ≤ length s.
Proof.
  unfold normal. etrans; [apply trim_length|].
  etrans; [apply (collapseRuns_length isWhiteSpace 32%N)|].
  by rewrite (replaceEach_length (N.eqb NBSP) 32%N).
Qed.

Lemma tidy_single_spaces s : ∀ b,
  tidy b s → Forall (λ c, isWhiteSpace c = true → c = SPACE) s.
Proof.
  induction s as [|c s IH]; intros b; simpl; [constructor|].
  destruct (isWhiteSpace c) eqn:Hc.
  - intros (-> & _ & H). constructor; [done|]. by eapply IH.
  - intros H. constructor; [congruence|]. by eapply IH.
Qed.

Lemma tidy_no_adjacent s a x y r :
  tidy false s → s = a ++ x :: y :: r →
  ¬ (isWhiteSpace x = true ∧ isWhiteSpace y = true).
Proof.
  intros H -> [Hx Hy]. apply tidy_suffix in H. simpl in H.
  rewrite Hx, Hy in H. by destruct H as (_ & _ & _ & ? & _).
Qed.

Lemma trimEnd_fixed_trim s : trimEnd (trim s) = trim s.
Proof. unfold trim. apply trimEnd_trimEnd. Qed.

Lemma headOk_trim s : headOk (trim s).
Proof. unfold trim. apply trimEnd_headOk, trimStart_headOk. Qed.

(** The last code unit of trimmed text is not whitespace. *)
Lemma trim_last s a c : trim s = a ++ [c] → isWhiteSpace c = false.
Proof.
  intros H. pose proof (trimEnd_fixed_trim s) as Hfix. rewrite H in Hfix.
  unfold trimEnd in Hfix. rewrite reverse_snoc in Hfix. simpl in Hfix.
  destruct (isWhiteSpace c) eqn:Hc; [|done].
  apply (f_equal length) in Hfix. rewrite length_reverse, length_app in Hfix.
  destruct (trimStart_suffix (reverse a)) as [pre Hpre].
  apply (f_equal length) in Hpre. rewrite length_app, length_reverse in Hpre.
  simpl in Hfix. lia.
Qed.

End CleanShapeFacts.

Import CleanShapeFacts.

(** ** The counts of the category selector *)

Module PageFacts.

Lemma indicator_absent (x : jsstring) (cs : list jsstring) :
  x ∉ cs → sum_list (map (λ c, if strictEq x c then 1 else 0) cs) = 0.
Proof.
  induction cs as [|c cs IH]; [done|].
  intros Hx. apply not_elem_of_cons in Hx as [Hne Hx].
  cbn [map sum_list]. unfold strictEq at 1.
  rewrite bool_decide_eq_false_2 by done. by rewrite IH.
Qed.

Lemma indicator_once (x : jsstring) (cs : list jsstring) :
  NoDup cs → x ∈ cs → sum_list (map (λ c, if strictEq x c then 1 else 0) cs) = 1.
Proof.
  induction 1 as [|c cs Hc Hnd IH]; [by intros ?%elem_of_nil|].
  intros Hx. cbn [map sum_list]. unfold strictEq at 1.
  destruct (decide (x = c)) as [->|Hne].
  - rewrite bool_decide_eq_true_2 by done. by rewrite indicator_absent.
  - rewrite bool_decide_eq_false_2 by done.
    apply elem_of_cons in Hx as [? | Hx]; [done|]. by rewrite IH.
Qed.

Lemma sum_list_add (f g : jsstring → nat) (cs : list jsstring) :
  sum_list (map (λ c, f c + g c) cs) = sum_list (map f cs) + sum_list (map g cs).
Proof. induction cs as [|c cs IH]; [done|]. simpl. rewrite IH. lia. Qed.

Lemma counts_partition (cs : list jsstring) (es : list Entry) :
  NoDup cs → Forall (λ e, category e ∈ cs) es →
  sum_list (map (λ c, length (List.filter (λ e, strictEq (category e) c) es)) cs)
  = length es.
Proof.
  intros Hnd. induction 1 as [|e es He _ IH].
  - cbn. induction cs as [|c cs IHc]; [done|].
    apply NoDup_cons in Hnd as [_ Hnd]. cbn [map sum_list]. by rewrite IHc.
  - erewrite (map_ext _ (λ c, (if strictEq (category e) c then 1 else 0)
                              + length (List.filter (λ e, strictEq (category e) c) es))).
    + rewrite sum_list_add, IH, indicator_once by done. done.
    + intros c. cbn [List.filter]. by destruct (strictEq (category e) c).
Qed.

Lemma categories_NoDup : NoDup Page.categories.
Proof. apply (bool_decide_unpack _). vm_compute. exact I. Qed.

Lemma all_is_no_category : Forall (λ c, strictEq c (lit "all") = false) Page.categories.
Proof. apply (bool_decide_unpack _). vm_compute. exact I. Qed.

End PageFacts.

(** ** The responses of the handlers *)

Module RequestFacts.

Section Responses.

Variable toUpperCase : jsstring → jsstring.
Variable cheerioText : jsstring → jsstring.

(** The part of the [try] block after the request answers, with a
    well-formed response whose status is decided by the outcome of the
    request and by the marker. *)
Lemma scrape_answers (registerDate now : jsstring) (invalid : string) (f : fetched) :
  ∃ r, scrape toUpperCase cheerioText registerDate now invalid f = Done r ∧
       wellFormedResponse r ∧
       status r = match f with
                  | Page data => if hasMarker toUpperCase data then 200 else 400
                  | Rejected _ => 500
                  end.
Proof.
  unfold scrape. destruct f as [data|message].
  - destruct (hasMarker toUpperCase data); simpl.
    + destruct (extractEntries_scan toUpperCase (cheerioText data))
        as (scanned & _ & ->).
      eexists. split; [done|]. unfold wellFormedResponse. simpl.
      split_and!; [done..| |done].
      rewrite uniqueEntries_firstOccurrences. apply firstOccurrences_NoDup.
    + eexists. split; [done|]. unfold wellFormedResponse. simpl. auto.
  - eexists. split; [done|]. unfold wellFormedResponse. simpl. auto.
Qed.

Variable today : DateFormat.jsDate.
Variable now : jsstring.
Variable post : jsstring → Requests.posted.

Lemma serve_answers (invalid : string) (b : Requests.requestBody) :
  ∃ r, Requests.serve toUpperCase cheerioText today now post invalid b = Done r ∧
       wellFormedResponse r ∧
       status r = match b with
                  | Requests.Unreadable _ => 500
                  | Requests.Readable date =>
                      match post (Requests.registerDateOf today date) with
                      | Requests.Text data =>
                          if hasMarker toUpperCase data then 200 else 400
                      | Requests.NotText _ | Requests.Refused _ => 500
                      end
                  end.
Proof.
  unfold Requests.serve. destruct b as [message|date].
  - eexists. split; [done|]. unfold wellFormedResponse. simpl. auto.
  - destruct (post (Requests.registerDateOf today date)) as [data|message|message].
    + apply scrape_answers.
    + eexists. split; [done|]. unfold wellFormedResponse. simpl. auto.
    + apply (scrape_answers _ _ _ (Rejected message)).
Qed.

(** Once the body is read and the site has answered with a text page, the
    handlers go on as [registerRoute] and [defaultHandler] do with that
    page. *)
Lemma route_registerRoute (date : option jsstring) (data : jsstring) :
  post (Requests.registerDateOf today date) = Requests.Text data →
  Requests.route toUpperCase cheerioText today now post (Requests.Readable date)
  = registerRoute toUpperCase cheerioText (Requests.registerDateOf today date) now
      (Page data).
Proof. intros Hpost. unfold Requests.route, Requests.serve. by rewrite Hpost. Qed.

Lemma handler_defaultHandler (method : string) (date : option jsstring)
    (data : jsstring) :
  post (Requests.registerDateOf today date) = Requests.Text data →
  Requests.handler toUpperCase cheerioText today now post
    (Requests.Request method (Requests.Readable date))
  = defaultHandler toUpperCase cheerioText (Requests.registerDateOf today date) now
      method (Page data).
Proof.
  intros Hpost. unfold Requests.handler, Requests.serve, defaultHandler. simpl.
  by rewrite Hpost.
Qed.

End Responses.

End RequestFacts.

(** * The claims *)

(** C1 (Scenario A): on the text "MC-123456 Acme Trucking Co 01/15/2024",
    when no category keyword occurs in the upper-cased context window of the
    match, extraction returns exactly one entry, with number "MC-123456",
    title "Acme Trucking Co", decided "01/15/2024" and category
    "MISCELLANEOUS". *)
Theorem scenario_A_single_entry (toUpperCase : jsstring → jsstring) :
  noKeywordIn (contextText toUpperCase scenarioA 0) →
  extractEntries toUpperCase scenarioA
  = Done [ mkEntry (lit "MC-123456") (lit "Acme Trucking Co") (lit "01/15/2024")
                   (lit "MISCELLANEOUS") ].
Proof.
  intros Hno.
  assert (H : extractEntries toUpperCase scenarioA
              = Done [ mkEntry (lit "MC-123456") (lit "Acme Trucking Co")
                               (lit "01/15/2024")
                               (detectCategory (contextText toUpperCase scenarioA 0)) ])
    by (by_evaluation).
  rewrite H. by rewrite detectCategory_none.
Qed.

Lemma scenario_A_single_entry_witness :
  extractEntries asciiUpper scenarioA
  = Done [ mkEntry (lit "MC-123456") (lit "Acme Trucking Co") (lit "01/15/2024")
                   (lit "MISCELLANEOUS") ].
Proof.
  apply (scenario_A_single_entry asciiUpper).
  repeat constructor; intros (k & ->%list_elem_of_singleton & a & b & H);
    destruct a; discriminate H.
Defined.

(** C2: for every match of the docket pattern, starting at position P, from
    which the loop makes an entry, the category of that entry is the one
    assigned to the upper-cased window of the text from max(0, P - 1500) to
    P: the label of the last row of the category table, in declared order,
    one of whose keywords occurs in the window, and MISCELLANEOUS when no
    keyword occurs; no other label is assigned to the window. Every extracted
    entry is the entry the loop makes from such a match. *)
Theorem category_from_context_window (toUpperCase : jsstring → jsstring)
    (rawText : jsstring) :
  (∀ lastIndex m e,
     exec pattern patternGroups rawText lastIndex = Some m →
     processMatch toUpperCase rawText m = Done (Some e) →
     assigned
       (toUpperCase
          (substring rawText (Z.max 0 (Z.of_nat (index m) - 1500)) (Z.of_nat (index m))))
       (category e) ∧
     ∀ c, assigned
            (toUpperCase
               (substring rawText (Z.max 0 (Z.of_nat (index m) - 1500))
                          (Z.of_nat (index m))))
            c →
          c = category e) ∧
  (∀ es e,
     extractEntries toUpperCase rawText = Done es → e ∈ es →
     ∃ lastIndex m,
       exec pattern patternGroups rawText lastIndex = Some m ∧
       processMatch toUpperCase rawText m = Done (Some e) ∧
       capture m 1 = Some (number e) ∧
       assigned
         (toUpperCase
            (substring rawText (Z.max 0 (Z.of_nat (index m) - 1500))
                       (Z.of_nat (index m))))
         (category e)).
Proof.
  assert (Hmatch : ∀ lastIndex m e,
            exec pattern patternGroups rawText lastIndex = Some m →
            processMatch toUpperCase rawText m = Done (Some e) →
            capture m 1 = Some (number e) ∧
            assigned (contextText toUpperCase rawText (index m)) (category e)).
  { intros li m e E Em.
    destruct (processMatch_entry _ _ _ _ _ E Em) as (_ & Hn & _ & _ & Hc).
    split; [done|]. rewrite Hc. apply detectCategory_assigned. }
  split.
  - intros li m e E Em. destruct (Hmatch li m e E Em) as [_ Ha].
    split; [exact Ha|]. intros c Hc. exact (assigned_unique _ _ _ Hc Ha).
  - intros es e Hex He.
    destruct (extractEntries_provenance _ _ _ _ Hex He) as (li & m & E & Em).
    destruct (Hmatch li m e E Em) as [Hn Ha].
    exists li, m. done.
Qed.

Lemma category_from_context_window_witness :
  (assigned
     (asciiUpper
        (substring scenarioB (Z.max 0 (Z.of_nat (index scenarioB_match) - 1500))
                   (Z.of_nat (index scenarioB_match))))
     (lit "REVOCATION") ∧
   ∀ c, assigned
          (asciiUpper
             (substring scenarioB (Z.max 0 (Z.of_nat (index scenarioB_match) - 1500))
                        (Z.of_nat (index scenarioB_match))))
          c →
        c = lit "REVOCATION") ∧
  ∃ lastIndex m,
    exec pattern patternGroups scenarioB lastIndex = Some m ∧
    processMatch asciiUpper scenarioB m = Done (Some scenarioB_entry) ∧
    capture m 1 = Some (lit "MC-123456") ∧
    assigned
      (asciiUpper
         (substring scenarioB (Z.max 0 (Z.of_nat (index m) - 1500)) (Z.of_nat (index m))))
      (lit "REVOCATION").
Proof.
  destruct (category_from_context_window asciiUpper scenarioB) as [Hmatch Hentry].
  split.
  - apply (Hmatch 0 scenarioB_match scenarioB_entry).
    + vm_compute; reflexivity.
    + vm_compute; reflexivity.
  - apply (Hentry [scenarioB_entry] scenarioB_entry).
    + vm_compute; reflexivity.
    + apply list_elem_of_singleton. reflexivity.
Defined.

(** Two records with the same number under different headings: each entry
    takes the category of the window before its own match. *)
Example same_number_two_headings :
  extractEntries asciiUpper
    (lit "REVOCATIONS MC-1 A 01/01/2020 TRANSFERS MC-1 B 02/02/2020")
  = Done [ mkEntry (lit "MC-1") (lit "A") (lit "01/01/2020") (lit "REVOCATION");
           mkEntry (lit "MC-1") (lit "B") (lit "02/02/2020") (lit "TRANSFERS") ].
Proof. by_evaluation. Qed.

(** C3: deduplication runs on the complete scan result; it keeps, for each
    (number, title) pair, the first entry in scan order and drops the later
    ones, so the result is the scan result in its order without the dropped
    entries, and no two of its entries have the same number and title. *)
Theorem dedup_keeps_first_occurrences (toUpperCase : jsstring → jsstring)
    (rawText : jsstring) (entries : list Entry) :
  (∃ scanned, scanEntries toUpperCase rawText = Done scanned ∧
              extractEntries toUpperCase rawText = Done (uniqueEntries scanned)) ∧
  uniqueEntries entries = firstOccurrences [] entries ∧
  uniqueEntries entries `sublist_of` entries ∧
  NoDup (key <$> uniqueEntries entries).
Proof.
  split_and!.
  - apply extractEntries_scan.
  - apply uniqueEntries_firstOccurrences.
  - apply uniqueEntries_sublist.
  - rewrite uniqueEntries_firstOccurrences. apply firstOccurrences_NoDup.
Qed.

(** C4: extraction always returns, and no entry it returns has a title of
    more than 500 code units; when the cleaned (whitespace-collapsed,
    trimmed) body of a match is longer than that, the loop goes on to the
    next match with the list of entries unchanged. *)
Theorem oversized_titles_dropped (toUpperCase : jsstring → jsstring)
    (rawText : jsstring) :
  (∃ es, extractEntries toUpperCase rawText = Done es ∧
         Forall (λ e, length (title e) ≤ 500) es) ∧
  ∀ fuel lastIndex m rawInfo collapsed entries,
    exec pattern patternGroups rawText lastIndex = Some m →
    capture m 2 = Some rawInfo →
    replaceAll whitespaceRun 0 (lit " ") rawInfo = Done collapsed →
    500 < length (trim collapsed) →
    scanLoop toUpperCase (S fuel) rawText lastIndex entries
    = scanLoop toUpperCase fuel rawText (endIndex m) entries.
Proof.
  split.
  - destruct (extractEntries_scan toUpperCase rawText) as (scanned & _ & Hex).
    eexists. split; [done|].
    apply Forall_forall. intros e He.
    destruct (extractEntries_provenance _ _ _ _ Hex He) as (li & m & E & Em).
    by eapply processMatch_entry.
  - intros fuel li m rawInfo collapsed entries E H2 Hc Hlen.
    pose proof (exec_pattern _ _ _ E) as [(d & b & t & rest & H1 & H2' & H3 & _) _].
    rewrite H2 in H2'. injection H2' as <-.
    destruct (processMatch_captured toUpperCase rawText m d rawInfo t H1 H2 H3)
      as (c & Hc' & Hp).
    rewrite Hc in Hc'. injection Hc' as <-.
    simpl. rewrite E, Hp. apply Nat.ltb_lt in Hlen. by rewrite Hlen.
Qed.

Lemma oversized_titles_dropped_witness :
  scanLoop asciiUpper 2 scenarioD 0 []
  = scanLoop asciiUpper 1 scenarioD (endIndex scenarioD_match) [].
Proof.
  destruct (oversized_titles_dropped asciiUpper scenarioD) as [_ Hdrop].
  apply (Hdrop 1 0 scenarioD_match (replicate 600 65%N) (replicate 600 65%N) []).
  - vm_compute; reflexivity.
  - vm_compute; reflexivity.
  - vm_compute; reflexivity.
  - apply Nat.ltb_lt. vm_compute; reflexivity.
Defined.

Example scenario_D_dropped :
  extractEntries asciiUpper scenarioD = Done [].
Proof. by_evaluation. Qed.

Example scenario_B_revocation :
  extractEntries asciiUpper scenarioB
  = Done [ mkEntry (lit "MC-123456") (lit "Acme Trucking Co") (lit "01/15/2024")
                   (lit "REVOCATION") ].
Proof. by_evaluation. Qed.

Example scenario_C_duplicate :
  extractEntries asciiUpper (lit "MC-1 AAA 01/01/2020 MC-1  AAA 02/02/2020")
  = Done [ mkEntry (lit "MC-1") (lit "AAA") (lit "01/01/2020") (lit "MISCELLANEOUS") ].
Proof. by_evaluation. Qed.

(** C5: the validation gate looks for "FMCSA REGISTER" in the upper-cased
    markup. Without it both handlers answer with status 400, a validation
    error and no entries; with it they answer with status 200 and the
    deduplicated entries extracted from the text of the page. In either case
    the handler returns a response. *)
Theorem marker_gate (toUpperCase cheerioText : jsstring → jsstring)
    (registerDate now data : jsstring) :
  (hasMarker toUpperCase data = true ↔ occursIn (lit "FMCSA REGISTER") (toUpperCase data)) ∧
  ∃ es,
    extractEntries toUpperCase (cheerioText data) = Done es ∧
    registerRoute toUpperCase cheerioText registerDate now (Page data)
    = Done (if hasMarker toUpperCase data
            then Response 200 (Success (length es) registerDate now es)
            else Response 400
                   (Failure "Invalid response from FMCSA. The page might not be available for this date."
                            None [])) ∧
    defaultHandler toUpperCase cheerioText registerDate now "POST" (Page data)
    = Done (if hasMarker toUpperCase data
            then Response 200 (Success (length es) registerDate now es)
            else Response 400 (Failure "Invalid response from FMCSA" None [])).
Proof.
  split; [apply includes_spec|].
  destruct (extractEntries_scan toUpperCase (cheerioText data)) as (scanned & _ & Hex).
  exists (uniqueEntries scanned). split; [done|].
  unfold registerRoute, defaultHandler, scrape. simpl.
  destruct (hasMarker toUpperCase data); simpl; [|done].
  by rewrite Hex.
Qed.

Example scenario_E_no_marker :
  registerRoute asciiUpper id [] [] (Page (lit "<html><body>Service unavailable</body></html>"))
  = Done (Response 400
            (Failure "Invalid response from FMCSA. The page might not be available for this date."
                     None [])).
Proof. by_evaluation. Qed.

(** C6 (Scenario F): on "MC-1 AAA 01/01/2020 MC-2 BBB 02/02/2020" extraction
    returns exactly two entries, MC-1 / AAA / 01/01/2020 and then
    MC-2 / BBB / 02/02/2020: the lazy body stops at the nearest date, so the
    first body does not run into the second docket token. *)
Theorem scenario_F_two_entries (toUpperCase : jsstring → jsstring) :
  ∃ category1 category2,
    extractEntries toUpperCase scenarioF
    = Done [ mkEntry (lit "MC-1") (lit "AAA") (lit "01/01/2020") category1;
             mkEntry (lit "MC-2") (lit "BBB") (lit "02/02/2020") category2 ].
Proof. eexists _, _. by_evaluation. Qed.

(** C7: the four docket prefixes MC, FF, MX and MX-MC are all recognised,
    and the number of every extracted entry is one of them, a hyphen and
    digits. On "MX-MC-123456 Foo Corp 01/01/2020" the number is the whole
    token "MX-MC-123456"; in general, a match that starts where the text
    reads "MX-MC-" has a number that starts with "MX-MC-", although MX comes
    before MX-MC in the alternation. *)
Theorem mx_mc_prefix_not_truncated (toUpperCase : jsstring → jsstring)
    (rawText : jsstring) :
  ((∃ category,
      extractEntries toUpperCase scenarioMXMC
      = Done [ mkEntry (lit "MX-MC-123456") (lit "Foo Corp") (lit "01/01/2020") category ])
   ∧ (∃ category,
      extractEntries toUpperCase (lit "MC-123456 Foo Corp 01/01/2020")
      = Done [ mkEntry (lit "MC-123456") (lit "Foo Corp") (lit "01/01/2020") category ])
   ∧ (∃ category,
      extractEntries toUpperCase (lit "FF-123456 Foo Corp 01/01/2020")
      = Done [ mkEntry (lit "FF-123456") (lit "Foo Corp") (lit "01/01/2020") category ])
   ∧ (∃ category,
      extractEntries toUpperCase (lit "MX-123456 Foo Corp 01/01/2020")
      = Done [ mkEntry (lit "MX-123456") (lit "Foo Corp") (lit "01/01/2020") category ]))
  ∧ (∀ es e, extractEntries toUpperCase rawText = Done es → e ∈ es →
             docketToken (number e))
  ∧ (∀ lastIndex m,
       exec pattern patternGroups rawText lastIndex = Some m →
       startsWith (drop (index m) rawText) (lit "MX-MC-") = true →
       ∃ digits, digits ≠ [] ∧ Forall (λ c, isDigit c = true) digits ∧
                 capture m 1 = Some (lit "MX-MC-" ++ digits)).
Proof.
  split; [|split].
  - split_and!; eexists; by_evaluation.
  - intros es e Hex He.
    destruct (extractEntries_provenance _ _ _ _ Hex He) as (li & m & E & Em).
    by destruct (processMatch_entry _ _ _ _ _ E Em) as (_ & _ & _ & Htok & _).
  - intros li m E [b Hb]%startsWith_spec.
    apply exec_pattern in E
      as [(d & _ & _ & rest & H1 & _ & _ & (p & digits & Hp & Hne & Hd & ->) & Hdrop) _].
    rewrite Hb in Hdrop. exists digits. split_and!; [done..|].
    rewrite H1. f_equal.
    unfold docketPrefixes in Hp.
    repeat (apply elem_of_cons in Hp as [->|Hp]); [| | |done|by apply elem_of_nil in Hp].
    + discriminate Hdrop.
    + discriminate Hdrop.
    + destruct digits as [|c digits]; [done|].
      apply Forall_cons_1 in Hd as [Hc _].
      injection Hdrop as <-. discriminate Hc.
Qed.

Lemma mx_mc_prefix_not_truncated_witness :
  ∃ digits, digits ≠ [] ∧ Forall (λ c, isDigit c = true) digits ∧
            capture scenarioMXMC_match 1 = Some (lit "MX-MC-" ++ digits).
Proof.
  destruct (mx_mc_prefix_not_truncated asciiUpper scenarioMXMC) as (_ & _ & Hfull).
  apply (Hfull 0 scenarioMXMC_match).
  - vm_compute; reflexivity.
  - vm_compute; reflexivity.
Defined.

(** C8, as the code has it: a failing upsert is reported to the caller, who
    gets [{ success: false, error: message }] with the message of the
    failure; a failing query is written to the console and
    [fetchFMCSARegisterEntries] returns the empty list. *)
Theorem persistence_failures
    (upsert : string → list Service.FMCSARegisterEntry → string
              → Service.reply (list Service.FMCSARegisterEntry))
    (select : Service.query → Service.reply (list Service.FMCSARegisterEntry))
    (clock : nat → jsstring)
    (entry : Service.FMCSARegisterEntry) (entries : list Service.FMCSARegisterEntry)
    (fetchDate : jsstring) (f : option Service.filters) (saveError queryError : string) :
  Service.fails
    (upsert "fmcsa_register"%string (Service.toRecords clock (entry :: entries) fetchDate)
            "number,date_fetched"%string) saveError →
  Service.fails (select (Service.buildQuery f)) queryError →
  (Service.saveFMCSARegisterEntries upsert clock (Some (entry :: entries)) fetchDate).1
  = Service.SaveResult false (Some saveError) None ∧
  (Service.fetchFMCSARegisterEntries select f).1 = [] ∧
  ∃ label,
    Service.ConsoleError label queryError ∈ (Service.fetchFMCSARegisterEntries select f).2.
Proof.
  intros Hsave Hquery. split_and!.
  - unfold Service.saveFMCSARegisterEntries.
    destruct Hsave as [->|[data ->]]; reflexivity.
  - unfold Service.fetchFMCSARegisterEntries.
    destruct Hquery as [->|[data ->]]; reflexivity.
  - unfold Service.fetchFMCSARegisterEntries.
    destruct Hquery as [->|[data ->]]; eexists; simpl; right; left.
Qed.

Lemma persistence_failures_witness :
  (Service.saveFMCSARegisterEntries
     (λ _ _ _, Service.Answer None (Some "duplicate key"%string)) (λ _, []) (Some [sampleRow])
     (lit "2020-01-01")).1
  = Service.SaveResult false (Some "duplicate key"%string) None ∧
  (Service.fetchFMCSARegisterEntries (λ _, Service.Reject "network down"%string) None).1 = [] ∧
  ∃ label,
    Service.ConsoleError label "network down"%string
    ∈ (Service.fetchFMCSARegisterEntries (λ _, Service.Reject "network down"%string) None).2.
Proof.
  apply (persistence_failures
           (λ _ _ _, Service.Answer None (Some "duplicate key"%string))
           (λ _, Service.Reject "network down"%string) (λ _, []) sampleRow []
           (lit "2020-01-01") None "duplicate key"%string "network down"%string).
  - right. exists None. reflexivity.
  - left. reflexivity.
Defined.

(** C8 as stated fails on the query path: a query that fails with
    "permission denied" returns the empty list, exactly what a query that
    found no rows returns, so the failure is not surfaced to the caller. *)
Lemma query_failure_not_surfaced :
  ¬ queryFailureSurfaced (λ _, Service.Answer None (Some "permission denied"%string)) None.
Proof.
  intros Hsurfaced. apply (Hsurfaced "permission denied"%string).
  - right. exists None. reflexivity.
  - reflexivity.
Qed.

(** C9: normalisation is idempotent. [cleanText] returns on every input, and
    applying it to its own result gives that result again:
    cleanText(cleanText(s)) = cleanText(s). *)
Theorem cleanText_idempotent (text : option jsstring) :
  ∃ t, cleanText text = Done t ∧ cleanText (Some t) = Done t.
Proof.
  destruct text as [s|].
  - exists (normal s). rewrite !cleanText_normal.
    by rewrite normal_normal.
  - by exists [].
Qed.

(** C10: called with [null], [undefined] or an empty list,
    [saveFMCSARegisterEntries] returns [{ success: true, count: 0 }] and does
    nothing else: no storage request is made. *)
Theorem save_nothing_to_save
    (upsert : string → list Service.FMCSARegisterEntry → string
              → Service.reply (list Service.FMCSARegisterEntry))
    (clock : nat → jsstring) (fetchDate : jsstring) :
  Service.saveFMCSARegisterEntries upsert clock None fetchDate
  = (Service.SaveResult true None (Some 0), []) ∧
  Service.saveFMCSARegisterEntries upsert clock (Some []) fetchDate
  = (Service.SaveResult true None (Some 0), []).
Proof. split; reflexivity. Qed.

(** * Further properties of the code *)

(** ** The extraction loop *)

(** X1: at every match the text reads: docket token, whitespace, body,
    whitespace, date-shaped token; captures 1 to 3 are the docket token, the
    body and the date, and the match ends right after the date. *)
Theorem match_anatomy (rawText : jsstring) (lastIndex : nat) (m : execResult) :
  exec pattern patternGroups rawText lastIndex = Some m →
  ∃ docket ws1 body ws2 d rest,
    drop (index m) rawText = docket ++ ws1 ++ body ++ ws2 ++ d ++ rest ∧
    endIndex m = index m + length (docket ++ ws1 ++ body ++ ws2 ++ d) ∧
    docketToken docket ∧ whitespaceOnly ws1 ∧ whitespaceOnly ws2 ∧ dateShaped d ∧
    capture m 1 = Some docket ∧ capture m 2 = Some body ∧ capture m 3 = Some d.
Proof.
  intros E.
  destruct (exec_pattern_parts _ _ _ E)
    as (docket & ws1 & body & ws2 & d & rest & H).
  exists docket, ws1, body, ws2, d, rest. tauto.
Qed.

Lemma match_anatomy_witness :
  ∃ docket ws1 body ws2 d rest,
    drop (index scenarioF_second) scenarioF
    = docket ++ ws1 ++ body ++ ws2 ++ d ++ rest ∧
    endIndex scenarioF_second
    = index scenarioF_second + length (docket ++ ws1 ++ body ++ ws2 ++ d) ∧
    docketToken docket ∧ whitespaceOnly ws1 ∧ whitespaceOnly ws2 ∧ dateShaped d ∧
    capture scenarioF_second 1 = Some docket ∧
    capture scenarioF_second 2 = Some body ∧
    capture scenarioF_second 3 = Some d.
Proof.
  apply (match_anatomy scenarioF 19 scenarioF_second).
  vm_compute; reflexivity.
Defined.

(** X2: the lazy body stops at the first opportunity: the body of a match
    never contains whitespace followed by a date-shaped token. *)
Theorem body_has_no_whitespace_date (rawText : jsstring) (lastIndex : nat)
    (m : execResult) (rawInfo : jsstring) :
  exec pattern patternGroups rawText lastIndex = Some m →
  capture m 2 = Some rawInfo →
  ¬ ∃ a ws d b, rawInfo = a ++ ws ++ d ++ b ∧ whitespaceOnly ws ∧ dateShaped d.
Proof.
  intros E H2 (a & ws & d & b & Hbody & Hws & Hd).
  destruct (exec_pattern_parts _ _ _ E)
    as (docket & ws1 & body & ws2 & d' & rest & _ & _ & _ & _ & _ & _ & _ & H2' & _ & Hmin).
  rewrite H2 in H2'. injection H2' as <-.
  apply (Hmin (length a)).
  - rewrite Hbody, !length_app. destruct Hws as [Hne _].
    destruct ws; [done|simpl; lia].
  - exists (ws ++ d), (b ++ ws2 ++ d' ++ rest). split.
    + rewrite Hbody, <- !app_assoc. by rewrite drop_app_length.
    + apply lang_seq; [by apply lang_whitespaceRun|by apply lang_dateRegex].
Qed.

Lemma body_has_no_whitespace_date_witness :
  ¬ ∃ a ws d b, lit "AAA" = a ++ ws ++ d ++ b ∧ whitespaceOnly ws ∧ dateShaped d.
Proof.
  apply (body_has_no_whitespace_date scenarioF 0 scenarioF_first (lit "AAA")).
  - vm_compute; reflexivity.
  - vm_compute; reflexivity.
Defined.

(** X3: the scan goes through the matches from left to right: the scanned
    entries are what the loop body emits for the successive matches, in
    that order, and the spans of the matches follow one another without
    overlap inside the text. *)
Theorem scan_in_document_order (toUpperCase : jsstring → jsstring) (rawText : jsstring) :
  ∃ ms,
    matchChain rawText 0 ms ∧
    scanEntries toUpperCase rawText = Done (ms ≫= emitted toUpperCase rawText) ∧
    spansFrom 0 (length rawText) ms.
Proof.
  destruct (scanEntries_done toUpperCase rawText) as [es Hes].
  destruct (scanLoop_chain toUpperCase _ _ _ _ _ Hes) as (ms & Hch & ->).
  exists ms. split_and!; [done|done|]. by apply matchChain_spans.
Qed.

(** X4: the scan misses no record: wherever a word of the pattern stands in
    the text, that place lies inside the span of one of the matches the
    scan went through. *)
Theorem scan_misses_no_record (rawText : jsstring) (ms : list execResult) (p : nat) :
  matchChain rawText 0 ms → recordAt rawText p →
  ∃ m, m ∈ ms ∧ index m ≤ p ∧ p < endIndex m.
Proof. intros Hch Hrec. eapply matchChain_covers; [done|lia|done]. Qed.

Lemma scan_misses_no_record_witness :
  ∃ m, m ∈ [scenarioF_first; scenarioF_second] ∧ index m ≤ 20 ∧ 20 < endIndex m.
Proof.
  apply (scan_misses_no_record scenarioF [scenarioF_first; scenarioF_second] 20).
  - split; [vm_compute; reflexivity|]. split; vm_compute; reflexivity.
  - destruct (exec_sound pattern patternGroups scenarioF 19 scenarioF_second)
      as (w & s1 & c1 & _ & Hw & L & _); [vm_compute; reflexivity|].
    exists w, s1. split; [exact Hw|exact L].
Defined.

(** X5: a record takes at least 16 code units, so extraction returns at most
    one entry per 16 code units of text, and none for a shorter text. *)
Theorem entries_bounded_by_length (toUpperCase : jsstring → jsstring)
    (rawText : jsstring) :
  ∃ es, extractEntries toUpperCase rawText = Done es ∧
        16 * length es ≤ length rawText.
Proof.
  destruct (extractEntries_scan toUpperCase rawText) as (scanned & Hs & Hex).
  exists (uniqueEntries scanned). split; [done|].
  destruct (scanLoop_chain toUpperCase _ _ _ _ _ Hs) as (ms & Hch & ->).
  pose proof (sublist_length _ _ (uniqueEntries_sublist (ms ≫= emitted toUpperCase rawText))).
  pose proof (emitted_length toUpperCase rawText ms).
  simpl in *. destruct ms as [|m ms]; [simpl in *; lia|].
  pose proof (spansFrom_count _ _ _ (matchChain_spans _ _ _ Hch) ltac:(done)).
  lia.
Qed.

(** X6: every extracted entry is well formed: its decided date is
    date-shaped, its category is one of the nine labels the page lists, and
    its title is clean, that is, [cleanText] leaves it as it is. *)
Theorem entries_well_formed (toUpperCase : jsstring → jsstring) (rawText : jsstring) :
  ∃ es, extractEntries toUpperCase rawText = Done es ∧
        Forall (λ e, dateShaped (decided e) ∧
                     category e ∈ Page.categories ∧
                     cleanText (Some (title e)) = Done (title e)) es.
Proof.
  destruct (extractEntries_scan toUpperCase rawText) as (scanned & _ & Hex).
  eexists. split; [done|]. apply Forall_forall. intros e He.
  destruct (extractEntries_provenance _ _ _ _ Hex He) as (li & m & E & Em).
  destruct (processMatch_parts _ _ _ _ _ E Em) as (rawInfo & _ & Ht & Hd & Hc).
  split_and!; [done|rewrite Hc; apply detectCategory_label|].
  rewrite cleanText_normal. f_equal.
  assert (Htidy : tidy false (title e)) by (rewrite Ht; apply tidy_trim, tidy_collapse).
  unfold normal.
  rewrite (tidy_replaceEach_fixed _ _ Htidy), (tidy_collapse_fixed _ _ Htidy).
  rewrite Ht. apply trim_trim.
Qed.

(** X7: the context window of a match at index P is the upper-cased text of
    the up to 1500 code units that come right before P; nothing before them
    and nothing from P on has a part in the category. *)
Theorem context_window_extent (toUpperCase : jsstring → jsstring)
    (rawText : jsstring) (P : nat) :
  contextText toUpperCase rawText P = toUpperCase (drop (P - 1500) (take P rawText)) ∧
  length (drop (P - 1500) (take P rawText)) ≤ 1500.
Proof.
  split.
  - unfold contextText, substring, clamp. f_equal.
    replace (Z.to_nat (Z.min (Z.max (Z.max 0 (Z.of_nat P - 1500)) 0)
                             (Z.of_nat (length rawText))))
      with (Nat.min (P - 1500) (length rawText)) by lia.
    replace (Z.to_nat (Z.min (Z.max (Z.of_nat P) 0) (Z.of_nat (length rawText))))
      with (Nat.min P (length rawText)) by lia.
    destruct (decide (P ≤ length rawText)) as [Hle|Hgt].
    + replace (Nat.min (Nat.min (P - 1500) (length rawText)) (Nat.min P (length rawText)))
        with (P - 1500) by lia.
      replace (Nat.max (Nat.min (P - 1500) (length rawText)) (Nat.min P (length rawText)))
        with P by lia.
      rewrite take_drop_commute. f_equal. f_equal. lia.
    + rewrite (take_ge rawText P) by lia.
      replace (Nat.max (Nat.min (P - 1500) (length rawText)) (Nat.min P (length rawText)))
        with (length rawText) by lia.
      replace (Nat.min (Nat.min (P - 1500) (length rawText)) (Nat.min P (length rawText)))
        with (Nat.min (P - 1500) (length rawText)) by lia.
      destruct (decide (P - 1500 ≤ length rawText)) as [Hin|Hout].
      * replace (Nat.min (P - 1500) (length rawText)) with (P - 1500) by lia.
        apply take_ge. rewrite length_drop. lia.
      * replace (Nat.min (P - 1500) (length rawText)) with (length rawText) by lia.
        rewrite Nat.sub_diag, (drop_ge rawText (P - 1500)) by lia. done.
  - rewrite length_drop, length_take. lia.
Qed.

(** X8: deduplication is idempotent: deduplicating a deduplicated list
    changes nothing. *)
Theorem dedup_idempotent (entries : list Entry) :
  uniqueEntries (uniqueEntries entries) = uniqueEntries entries.
Proof.
  rewrite !uniqueEntries_firstOccurrences.
  apply firstOccurrences_fixed; [apply firstOccurrences_NoDup|].
  intros e _. apply not_elem_of_nil.
Qed.

(** X9: deduplication loses no record identity: every (number, title) pair
    of the scanned entries is still there after it. *)
Theorem dedup_keeps_every_key (entries : list Entry) :
  Forall (λ e, ∃ e', e' ∈ uniqueEntries entries ∧ key e' = key e) entries.
Proof.
  apply Forall_forall. intros e He. rewrite uniqueEntries_firstOccurrences.
  apply firstOccurrences_key_kept; [done|apply not_elem_of_nil].
Qed.

(** X10: both handlers answer every request, whatever the method, the
    body and the outcome of the request to the register site, and every
    response is well formed: a success has status 200, a count equal to the
    number of its entries and no two entries with the same number and title;
    a failure has status 400 or 500 and carries no entries. The status is
    500 when the body cannot be read (a POST without body), when the request
    to the site is refused and when the data of its answer is not text; for
    a text page it is 400 without the marker and 200 with it. The serverless
    handler answers OPTIONS with 200 and no body and any other method than
    POST with 405, before it reads the body. *)
Theorem responses_well_formed (toUpperCase cheerioText : jsstring → jsstring)
    (today : DateFormat.jsDate) (now : jsstring) (post : jsstring → Requests.posted)
    (req : Requests.VercelRequest) :
  ∃ r1 r2,
    Requests.route toUpperCase cheerioText today now post (Requests.body req) = Done r1 ∧
    Requests.handler toUpperCase cheerioText today now post req = Done r2 ∧
    wellFormedResponse r1 ∧ wellFormedResponse r2 ∧
    status r1 = match Requests.body req with
                | Requests.Unreadable _ => 500
                | Requests.Readable date =>
                    match post (Requests.registerDateOf today date) with
                    | Requests.Text data =>
                        if hasMarker toUpperCase data then 200 else 400
                    | Requests.NotText _ | Requests.Refused _ => 500
                    end
                end ∧
    (if String.eqb (Requests.method req) "OPTIONS" then r2 = Response 200 NoBody
     else if String.eqb (Requests.method req) "POST" then status r2 = status r1
     else r2 = Response 405 (ErrorOnly "Method not allowed")).
Proof.
  destruct (RequestFacts.serve_answers toUpperCase cheerioText today now post
              "Invalid response from FMCSA. The page might not be available for this date."%string
              (Requests.body req)) as (r1 & H1 & W1 & S1).
  destruct (RequestFacts.serve_answers toUpperCase cheerioText today now post
              "Invalid response from FMCSA"%string (Requests.body req))
    as (r2 & H2 & W2 & S2).
  unfold Requests.route, Requests.handler.
  destruct (String.eqb (Requests.method req) "OPTIONS").
  - exists r1, (Response 200 NoBody). done.
  - destruct (String.eqb (Requests.method req) "POST"); simpl.
    + exists r1, r2. split_and!; [done..|congruence].
    + exists r1, (Response 405 (ErrorOnly "Method not allowed")). done.
Qed.

(** A POST whose body cannot be read is answered with status 500 and the
    message of the error, by either handler. *)
Example post_without_body (toUpperCase cheerioText : jsstring → jsstring)
    (today : DateFormat.jsDate) (now : jsstring) (post : jsstring → Requests.posted)
    (message : string) :
  Requests.route toUpperCase cheerioText today now post (Requests.Unreadable message)
  = Done (Response 500
            (Failure "Failed to scrape FMCSA register data" (Some message) [])) ∧
  Requests.handler toUpperCase cheerioText today now post
    (Requests.Request "POST" (Requests.Unreadable message))
  = Done (Response 500
            (Failure "Failed to scrape FMCSA register data" (Some message) [])).
Proof. split; reflexivity. Qed.

(** ** The date of the register *)

(** X11: for a calendar date in a year of at least two digits,
    [formatDateForFMCSA] gives nine code units: the day in two digits, a
    hyphen, the three-letter month, a hyphen and the last two digits of the
    year. *)
Theorem register_date_shape (d : DateFormat.jsDate) :
  calendarDate d →
  ∃ month,
    DateFormat.months !! N.to_nat (DateFormat.getMonth d) = Some month ∧
    DateFormat.formatDateForFMCSA d
    = DateFormat.twoDigits (DateFormat.getDate d) ++ lit "-" ++ month ++ lit "-"
      ++ DateFormat.twoDigits (Z.to_N (DateFormat.getFullYear d) mod 100) ∧
    length (DateFormat.formatDateForFMCSA d) = 9.
Proof.
  intros (month & Hm & Hl & Hf)%format_shape.
  exists month. split_and!; [done..|].
  rewrite Hf, !length_app, Hl. reflexivity.
Qed.

Lemma register_date_shape_witness :
  ∃ month,
    DateFormat.months !! N.to_nat 1 = Some month ∧
    DateFormat.formatDateForFMCSA (DateFormat.JsDate 20 1 2026)
    = DateFormat.twoDigits 20 ++ lit "-" ++ month ++ lit "-"
      ++ DateFormat.twoDigits (Z.to_N 2026 mod 100) ∧
    length (DateFormat.formatDateForFMCSA (DateFormat.JsDate 20 1 2026)) = 9.
Proof.
  apply (register_date_shape (DateFormat.JsDate 20 1 2026)).
  unfold calendarDate. simpl. lia.
Defined.

(** The example of the source: 20 February 2026 is "20-FEB-26". *)
Example register_date_example :
  DateFormat.formatDateForFMCSA (DateFormat.JsDate 20 1 2026) = lit "20-FEB-26".
Proof. by_evaluation. Qed.

(** X12: the formatted date tells the day, the month and the year within
    its century, and nothing more: two calendar dates are formatted alike
    exactly when they agree on the day, the month and the year modulo 100. *)
Theorem register_date_same_iff (d1 d2 : DateFormat.jsDate) :
  calendarDate d1 → calendarDate d2 →
  DateFormat.formatDateForFMCSA d1 = DateFormat.formatDateForFMCSA d2 ↔
  DateFormat.getDate d1 = DateFormat.getDate d2 ∧
  DateFormat.getMonth d1 = DateFormat.getMonth d2 ∧
  (DateFormat.getFullYear d1 mod 100 = DateFormat.getFullYear d2 mod 100)%Z.
Proof.
  intros C1 C2.
  destruct (format_shape d1 C1) as (m1 & Hm1 & L1 & ->).
  destruct (format_shape d2 C2) as (m2 & Hm2 & L2 & ->).
  destruct C1 as ((? & ?) & ? & ?), C2 as ((? & ?) & ? & ?).
  assert (Hyear : ∀ y : Z, (10 ≤ y)%Z → Z.of_N (Z.to_N y mod 100) = (y mod 100)%Z).
  { intros y Hy. rewrite N2Z.inj_mod, Z2N.id by lia. done. }
  split.
  - destruct m1 as [|x1 [|x2 [|x3 [|]]]]; try done.
    destruct m2 as [|y1 [|y2 [|y3 [|]]]]; try done.
    unfold DateFormat.twoDigits. simpl.
    intros [= Ha1 Ha0 -> -> -> Hy1 Hy0].
    split_and!.
    + apply twoDigits_inj; [lia|lia|]. unfold DateFormat.twoDigits. congruence.
    + apply N2Nat.inj. eapply NoDup_lookup; [apply months_NoDup|done..].
    + rewrite <- !Hyear by done. f_equal.
      apply twoDigits_inj; [by apply N.mod_lt|by apply N.mod_lt|].
      unfold DateFormat.twoDigits. congruence.
  - intros (Hd & Hm & Hy). rewrite Hd. rewrite Hm in Hm1.
    assert (m1 = m2) as -> by congruence.
    do 5 f_equal. apply N2Z.inj. by rewrite !Hyear.
Qed.

Lemma register_date_same_iff_witness :
  DateFormat.formatDateForFMCSA (DateFormat.JsDate 20 1 1926)
  = DateFormat.formatDateForFMCSA (DateFormat.JsDate 20 1 2026) ↔
  20%N = 20%N ∧ 1%N = 1%N ∧ (1926 mod 100 = 2026 mod 100)%Z.
Proof.
  apply (register_date_same_iff (DateFormat.JsDate 20 1 1926) (DateFormat.JsDate 20 1 2026)).
  - unfold calendarDate. simpl. lia.
  - unfold calendarDate. simpl. lia.
Defined.

(** ** The persistence service *)

(** X13: when the upsert succeeds, [saveFMCSARegisterEntries] reports as
    count the number of entries it was given and sends them in one upsert,
    one record per entry in the same order; a record keeps the number,
    title, decided date and category of its entry, has no id, and is
    stamped with the fetch date of the call, whatever date the entry
    carried. *)
Theorem save_success
    (upsert : string → list Service.FMCSARegisterEntry → string
              → Service.reply (list Service.FMCSARegisterEntry))
    (clock : nat → jsstring)
    (entry : Service.FMCSARegisterEntry) (entries : list Service.FMCSARegisterEntry)
    (fetchDate : jsstring) (data : option (list Service.FMCSARegisterEntry)) :
  upsert "fmcsa_register"%string (Service.toRecords clock (entry :: entries) fetchDate)
         "number,date_fetched"%string
  = Service.Answer data None →
  ∃ records,
    Service.saveFMCSARegisterEntries upsert clock (Some (entry :: entries)) fetchDate
    = (Service.SaveResult true None (Some (length (entry :: entries))),
       [Service.Upsert "fmcsa_register" records "number,date_fetched"]) ∧
    length records = length (entry :: entries) ∧
    ∀ i e, (entry :: entries) !! i = Some e →
      ∃ r, records !! i = Some r ∧
           Service.number r = Service.number e ∧ Service.title r = Service.title e ∧
           Service.decided r = Service.decided e ∧
           Service.category r = Service.category e ∧
           Service.date_fetched r = fetchDate ∧ Service.id r = None.
Proof.
  intros Hreply. exists (Service.toRecords clock (entry :: entries) fetchDate).
  assert (Hlen : length (Service.toRecords clock (entry :: entries) fetchDate)
                 = length (entry :: entries))
    by (unfold Service.toRecords; apply length_imap).
  split_and!.
  - unfold Service.saveFMCSARegisterEntries. rewrite Hreply. by rewrite Hlen.
  - done.
  - intros i e Hi. unfold Service.toRecords. rewrite list_lookup_imap, Hi.
    simpl. eexists. split; [done|]. done.
Qed.

Lemma save_success_witness :
  ∃ records,
    Service.saveFMCSARegisterEntries (λ _ _ _, Service.Answer None None) (λ _, [])
      (Some [sampleRow]) (lit "2026-02-20")
    = (Service.SaveResult true None (Some (length [sampleRow])),
       [Service.Upsert "fmcsa_register" records "number,date_fetched"]) ∧
    length records = length [sampleRow] ∧
    ∀ i e, [sampleRow] !! i = Some e →
      ∃ r, records !! i = Some r ∧
           Service.number r = Service.number e ∧ Service.title r = Service.title e ∧
           Service.decided r = Service.decided e ∧
           Service.category r = Service.category e ∧
           Service.date_fetched r = lit "2026-02-20" ∧ Service.id r = None.
Proof.
  apply (save_success (λ _ _ _, Service.Answer None None) (λ _, []) sampleRow []
           (lit "2026-02-20") None).
  reflexivity.
Defined.


(** X15: [getFMCSACategories] returns the categories in strictly ascending
    order, so without duplicates; when the query succeeds they are exactly
    the non-empty categories of the rows, and when it fails the list is
    empty. *)
Theorem categories_sorted_and_complete (Row : Type) (categoryOf : Row → option jsstring)
    (send : ServiceQueries.request → Service.reply (list Row)) :
  ascending (ServiceQueries.getFMCSACategories Row categoryOf send).1 ∧
  match send (ServiceQueries.SelectNotNull "fmcsa_register" "category" "category") with
  | Service.Answer data None =>
      ∀ c, c ∈ (ServiceQueries.getFMCSACategories Row categoryOf send).1 ↔
           ∃ row, row ∈ default [] data ∧ Service.truthy (categoryOf row) = Some c
  | _ => (ServiceQueries.getFMCSACategories Row categoryOf send).1 = []
  end.
Proof.
  unfold ServiceQueries.getFMCSACategories.
  destruct (send _) as [data [message|]|message]; simpl; [done| |done].
  destruct (collect_from Row categoryOf (default [] data) [] (NoDup_nil_2))
    as [Hnd Hmem].
  split; [by apply sortStrings_ascending|].
  intros c. rewrite sortStrings_elem. unfold ServiceQueries.collectCategories.
  rewrite Hmem. split; [|by right].
  intros [?%elem_of_nil|?]; done.
Qed.

(** X16: when the query succeeds and no label is [__proto__] or the name of
    a member of [Object.prototype], [getFMCSAStatistics] counts right: the
    total is the number of rows, and each label, with UNCATEGORIZED for rows
    without a category, has as count the number of its rows, labels without
    rows having no count. *)
Theorem statistics_count_rows (Row : Type) (categoryOf : Row → option jsstring)
    (send : ServiceQueries.request → Service.reply (list Row))
    (inheritedText : jsstring → option jsstring)
    (dateFrom dateTo : option jsstring) (data : list Row) :
  (∀ r, send r = Service.Answer (Some data) None) →
  Forall (λ row, plainLabel inheritedText (ServiceQueries.labelOf Row categoryOf row)) data →
  let stats :=
    (ServiceQueries.getFMCSAStatistics Row categoryOf send inheritedText dateFrom dateTo).1 in
  ServiceQueries.totalEntries stats = length data ∧
  ∀ c, ServiceQueries.byCategory stats !! c
       = storedCount (occurrences categoryOf c data).
Proof.
  intros Hsend Hsafe. unfold ServiceQueries.getFMCSAStatistics.
  rewrite Hsend. simpl. split; [done|]. intros c.
  by rewrite (count_from Row categoryOf inheritedText data ∅ (λ _, 0)).
Qed.

Lemma statistics_count_rows_witness :
  let stats :=
    (ServiceQueries.getFMCSAStatistics (option jsstring) id
       (λ _, Service.Answer (Some sampleCategories) None) (λ _, None) None None).1 in
  ServiceQueries.totalEntries stats = length sampleCategories ∧
  ∀ c, ServiceQueries.byCategory stats !! c
       = storedCount (occurrences id c sampleCategories).
Proof.
  apply (statistics_count_rows (option jsstring) id
           (λ _, Service.Answer (Some sampleCategories) None) (λ _, None) None None
           sampleCategories).
  - reflexivity.
  - repeat constructor; vm_compute; discriminate.
Defined.

(** X17: when the store fails, the three read functions return their empty
    value (no rows, no categories, statistics of zero rows with the
    requested date range) and [deleteFMCSAEntriesBeforeDate] reports the
    failure with its message. *)
Theorem service_failures (Row : Type) (categoryOf : Row → option jsstring)
    (send : ServiceQueries.request → Service.reply (list Row))
    (inheritedText : jsstring → option jsstring)
    (date : jsstring) (dateFrom dateTo : option jsstring) (message : string) :
  (∀ r, Service.fails (send r) message) →
  (ServiceQueries.getFMCSAEntriesByDate Row send date).1 = [] ∧
  (ServiceQueries.getFMCSACategories Row categoryOf send).1 = [] ∧
  (ServiceQueries.getFMCSAStatistics Row categoryOf send inheritedText dateFrom dateTo).1
  = ServiceQueries.Statistics 0 ∅
      (default [] (Service.truthy dateFrom), default [] (Service.truthy dateTo)) ∧
  (ServiceQueries.deleteFMCSAEntriesBeforeDate Row send date).1
  = ServiceQueries.DeleteResult false (Some message) None.
Proof.
  intros Hfail.
  unfold ServiceQueries.getFMCSAEntriesByDate, ServiceQueries.getFMCSACategories,
    ServiceQueries.getFMCSAStatistics, ServiceQueries.deleteFMCSAEntriesBeforeDate.
  split_and!.
  - destruct (Hfail (ServiceQueries.SelectWhere
                       (Service.Query "fmcsa_register" "*"
                          [Service.Eq "date_fetched" date; Service.Order "number" true])))
      as [->|[data ->]]; reflexivity.
  - destruct (Hfail (ServiceQueries.SelectNotNull "fmcsa_register" "category" "category"))
      as [->|[data ->]]; reflexivity.
  - match goal with |- context [send ?r] => destruct (Hfail r) as [->|[data ->]] end;
      reflexivity.
  - destruct (Hfail (ServiceQueries.DeleteBefore "fmcsa_register" "date_fetched" date))
      as [->|[data ->]]; reflexivity.
Qed.

Lemma service_failures_witness :
  (ServiceQueries.getFMCSAEntriesByDate (option jsstring)
     (λ _, Service.Reject "network down"%string) (lit "2026-02-20")).1 = [] ∧
  (ServiceQueries.getFMCSACategories (option jsstring) id
     (λ _, Service.Reject "network down"%string)).1 = [] ∧
  (ServiceQueries.getFMCSAStatistics (option jsstring) id
     (λ _, Service.Reject "network down"%string) (λ _, None)
     (Some (lit "2026-02-01")) None).1
  = ServiceQueries.Statistics 0 ∅
      (default [] (Service.truthy (Some (lit "2026-02-01"))),
       default [] (Service.truthy None)) ∧
  (ServiceQueries.deleteFMCSAEntriesBeforeDate (option jsstring)
     (λ _, Service.Reject "network down"%string) (lit "2026-02-20")).1
  = ServiceQueries.DeleteResult false (Some "network down"%string) None.
Proof.
  apply (service_failures (option jsstring) id
           (λ _, Service.Reject "network down"%string) (λ _, None)
           (lit "2026-02-20") (Some (lit "2026-02-01")) None "network down"%string).
  intros r. left. reflexivity.
Defined.

(** ** Cleaning text *)

(** X18: [cleanText] returns text that is no longer than its input and in
    which whitespace occurs only as single spaces between other code units:
    no whitespace but the space, no two whitespace units in a row, none at
    the start and none at the end. *)
Theorem cleanText_shape (text : option jsstring) :
  ∃ t, cleanText text = Done t ∧ cleanShape t ∧
       length t ≤ length (default [] text).
Proof.
  assert (Hshape : ∀ s, cleanShape (normal s)).
  { intros s. pose proof (normal_tidy s) as Ht. split_and!.
    - by eapply tidy_single_spaces.
    - intros a x y r. by apply tidy_no_adjacent.
    - intros c r Hc. pose proof (headOk_trim
        (collapseRuns isWhiteSpace (lit " ") false (replaceEach (N.eqb NBSP) (lit " ") s)))
        as Hh.
      fold (normal s) in Hh. by rewrite Hc in Hh.
    - intros a c. apply trim_last. }
  destruct text as [s|].
  - exists (normal s). split_and!; [apply cleanText_normal|done|apply normal_length].
  - exists []. split_and!; [done|apply (Hshape [])|done].
Qed.

(** X19: the title of an entry is never longer than the body it was cleaned
    from, so a match whose body has at most 500 code units is never dropped:
    the loop body emits an entry for it. *)
Theorem short_bodies_are_emitted (toUpperCase : jsstring → jsstring)
    (rawText : jsstring) (lastIndex : nat) (m : execResult) (rawInfo : jsstring) :
  exec pattern patternGroups rawText lastIndex = Some m →
  capture m 2 = Some rawInfo → length rawInfo ≤ 500 →
  ∃ e, processMatch toUpperCase rawText m = Done (Some e) ∧
       length (title e) ≤ length rawInfo.
Proof.
  intros E H2 Hlen.
  pose proof (exec_pattern _ _ _ E) as [(d & b & t & rest & H1 & H2' & H3 & _) _].
  rewrite H2 in H2'. injection H2' as <-.
  destruct (processMatch_captured toUpperCase rawText m d rawInfo t H1 H2 H3)
    as (c & Hc & ->).
  rewrite replaceAll_whitespaceRun in Hc. injection Hc as <-.
  assert (Hle : length (trim (collapseRuns isWhiteSpace (lit " ") false rawInfo))
                ≤ length rawInfo).
  { etrans; [apply trim_length|]. apply (collapseRuns_length isWhiteSpace 32%N). }
  replace (500 <? _) with false by (symmetry; apply Nat.ltb_ge; lia).
  eexists. split; [done|]. done.
Qed.

Lemma short_bodies_are_emitted_witness :
  ∃ e, processMatch asciiUpper scenarioF scenarioF_first = Done (Some e) ∧
       length (title e) ≤ length (lit "AAA").
Proof.
  apply (short_bodies_are_emitted asciiUpper scenarioF 0 scenarioF_first (lit "AAA")).
  - vm_compute; reflexivity.
  - vm_compute; reflexivity.
  - vm_compute. lia.
Defined.

(** X20: in the category selector of the page, the counts shown beside the
    nine categories add up to the count shown beside "All Categories" when
    the page shows the entries of an extraction: every extracted entry is
    counted under exactly one option. *)
Theorem selector_counts_add_up (toUpperCase : jsstring → jsstring) (rawText : jsstring) :
  ∃ es, extractEntries toUpperCase rawText = Done es ∧
        sum_list (map (Page.getCategoryCount es) Page.categories)
        = Page.getCategoryCount es (lit "all").
Proof.
  destruct (extractEntries_scan toUpperCase rawText) as (scanned & _ & Hex).
  eexists. split; [done|].
  assert (Hcat : Forall (λ e, category e ∈ Page.categories)
                        (uniqueEntries scanned)).
  { apply Forall_forall. intros e He.
    destruct (extractEntries_provenance _ _ _ _ Hex He) as (li & m & E & Em).
    destruct (processMatch_parts _ _ _ _ _ E Em) as (rawInfo & _ & _ & _ & Hc).
    rewrite Hc. apply detectCategory_label. }
  trans (sum_list (map (λ c, length (List.filter (λ e, strictEq (category e) c)
                                                   (uniqueEntries scanned)))
                        Page.categories)).
  - apply (f_equal sum_list), map_ext_in. intros c Hc.
    pose proof PageFacts.all_is_no_category as Hall.
    rewrite Forall_forall in Hall.
    unfold Page.getCategoryCount. by rewrite (Hall c) by by apply list_elem_of_In.
  - rewrite (PageFacts.counts_partition _ _ PageFacts.categories_NoDup Hcat).
    unfold Page.getCategoryCount, strictEq. by rewrite bool_decide_eq_true_2.
Qed.
